(** * typeorm-scheduler: the scheduling engine

    A shallow embedding of [src/scheduler.ts] (class [Scheduler]): the
    claim query [checkNextAndLock], the interval computation
    [getNextStart], the three-way [rescheduleSleep], and the
    [start]/[stop]/[tick] loop with its [running], [processing] and [idle]
    flags.  The database, the wall clock and the user-supplied hooks are the
    environment; the cron parser and moment's parser are an interface with a
    small executable instance used for evaluation. *)

From Stdlib Require Import ZArith String Ascii Decimal DecimalString DecimalFacts DecimalPos DecimalN Lia.
From stdpp Require Import gmap strings list.

Local Open Scope Z_scope.

(** ** JavaScript values and objects *)

Inductive Value : Type :=
| VUndef
| VNull
| VBool (b : bool)
| VNum (n : Z)
| VStr (s : string).

#[global] Instance Value_eq_dec : EqDecision Value.
Proof. solve_decision. Defined.

(** An entity row, a partial update and a [where] clause are plain
    JavaScript objects: finite maps from property names. *)
Abbreviation Obj := (gmap string Value).

(** [o[k]]: a missing property reads as [undefined]. *)
Definition get (o : Obj) (k : string) : Value := default VUndef (o !! k).

(** An object literal [{ [k1]: v1, [k2]: v2, ... }]: the properties are
    defined from left to right, so a key that is written twice keeps the
    value that was written last. *)
Definition literal {V : Type} (props : list (string * V)) : gmap string V :=
  foldl (fun o kv => <[kv.1 := kv.2]> o) ∅ props.

Definition is_null (v : Value) : bool :=
  match v with
  | VUndef | VNull => true
  | _ => false
  end.

(** JavaScript truthiness, as tested by [if (x)] and [!x]. *)
Definition truthy (v : Value) : bool :=
  match v with
  | VUndef | VNull => false
  | VBool b => b
  | VNum n => negb (n =? 0)
  | VStr s => negb (String.eqb s "")
  end.

(** Truthiness of a [string | null]. *)
Definition truthy_str (v : option string) : bool :=
  match v with
  | None => false
  | Some s => negb (String.eqb s "")
  end.

Definition of_str (v : option string) : Value :=
  match v with
  | None => VNull
  | Some s => VStr s
  end.

(** ** Timestamps

    The clock counts milliseconds since the epoch.  [moment().format('X')]
    prints the Unix timestamp, [Math.floor(ms / 1000)], in decimal; the
    scheduler stores and compares these strings. *)

Definition unix (ms : Z) : Z := ms / 1000.

Definition decimal (n : Z) : string := NilEmpty.string_of_int (Z.to_int n).

Definition formatX (ms : Z) : string := decimal (unix ms).

(** [a < b] on two JavaScript strings compares them code unit by code
    unit; a text column of the database is compared the same way. *)
Definition str_lt (a b : string) : bool := String.ltb a b.

(** ** The job store *)

(** TypeORM find operators used by the scheduler. *)
Inductive FindOperator : Type :=
| Not (v : Value)
| LessThan (v : Value).

Abbreviation Where := (gmap string FindOperator).

(** SQL comparison of a column with a bound parameter: a NULL column never
    compares true. *)
Definition sql_lt (x v : Value) : bool :=
  match x, v with
  | VStr a, VStr b => str_lt a b
  | VNum a, VNum b => a <? b
  | _, _ => false
  end.

Definition sql_eq (x v : Value) : bool :=
  negb (is_null x) && bool_decide (x = v).

Definition holds (op : FindOperator) (x : Value) : bool :=
  match op with
  | Not v => negb (is_null x) && (is_null v || negb (bool_decide (x = v)))
  | LessThan v => sql_lt x v
  end.

(** A row satisfies a [where] object when every property of the object
    holds of the column of that name. *)
Definition satisfies (w : Where) (row : Obj) : bool :=
  forallb (fun kv => holds kv.2 (get row kv.1)) (map_to_list w).

Inductive Query : Type :=
| QBegin
| QCommit
| QRollback
| QFindOne (w : Where)
| QUpdate (id : Value) (fields : Obj)
| QDelete (id : Value).

(** The table of the configured entity, whether the connection is up, and
    the statements issued so far (oldest first). *)
Record Store : Type := mkStore {
  rows : list Obj;
  online : bool;
  journal : list Query
}.

Definition key : string := "id".

Definition update_rows (id : Value) (fields : Obj) (rs : list Obj) : list Obj :=
  map (fun r => if sql_eq (get r key) id then fields ∪ r else r) rs.

Definition delete_rows (id : Value) (rs : list Obj) : list Obj :=
  filter (fun r => sql_eq (get r key) id = false) rs.

Definition find_row (w : Where) (rs : list Obj) : option Obj :=
  find (satisfies w) rs.

(** ** Errors, the environment and the scheduler state *)

Inductive Err : Type :=
| StoreError
| CronError
| HookError (tag : string).

#[global] Instance Err_eq_dec : EqDecision Err.
Proof. solve_decision. Defined.

(** What lies outside the scheduler object: the database and the clock. *)
Record Env : Type := mkEnv {
  db : Store;
  clock : Z
}.

(** A user hook receives its argument, may act on the environment, and
    either returns ([None]) or throws. *)
Definition Hook (A : Type) : Type := A -> Env -> option Err * Env.

(** The job hook is handed the job object itself, not a copy: what it
    writes to the object is what the scheduler reads from it afterwards.
    Besides its outcome it yields the object as it left it. *)
Definition JobHook : Type := Obj -> Env -> option Err * Obj * Env.

(** What waits to run: the [tick] and [stop] callbacks handed to
    [process.nextTick], and a [tick] that waits for its [nextDelay] timer. *)
Inductive Task : Type :=
| TaskTick
| TaskResume
| TaskStop.

#[global] Instance Task_eq_dec : EqDecision Task.
Proof. solve_decision. Defined.

Inductive Event : Type :=
| EvSleep (ms : Z)
| EvOnStart
| EvOnStop
| EvOnIdle
| EvOnNewJob (job : Obj)
| EvOnError (err : Err).

#[global] Instance Event_eq_dec : EqDecision Event.
Proof. solve_decision. Defined.

(** The three private flags of the class. *)
Record Flags : Type := mkFlags {
  running : bool;
  processing : bool;
  idle : bool
}.

(** [log] records hook invocations and sleeps, oldest first; [queue] holds
    what has been scheduled and has not run yet. *)
Record World : Type := mkWorld {
  flags : Flags;
  env : Env;
  log : list Event;
  queue : list Task
}.

(** ** A state-and-exception monad for the async methods

    An [async] method is run to completion on the world; a rejected promise
    is the [inl] result.  The world is kept in both cases, as effects that
    happened before a throw are not undone. *)

Definition M (A : Type) : Type := World -> (Err + A) * World.

Definition ret {A} (a : A) : M A := fun w => (inr a, w).

Definition throw {A} (e : Err) : M A := fun w => (inl e, w).

Definition bind {A B} (m : M A) (k : A -> M B) : M B :=
  fun w =>
    match m w with
    | (inr a, w') => k a w'
    | (inl e, w') => (inl e, w')
    end.

(** [try { body } catch (err) { handler }] *)
Definition try_catch {A} (body : M A) (handler : Err -> M A) : M A :=
  fun w =>
    match body w with
    | (inr a, w') => (inr a, w')
    | (inl e, w') => handler e w'
    end.

Notation "x <- m ;; k" := (bind m (fun x => k))
  (at level 100, m at next level, right associativity).
Notation "m ;; k" := (bind m (fun _ => k))
  (at level 100, right associativity).

Definition set_flags (f : Flags) (w : World) : World :=
  mkWorld f (env w) (log w) (queue w).

Definition set_env (e : Env) (w : World) : World :=
  mkWorld (flags w) e (log w) (queue w).

Definition set_db (s : Store) (w : World) : World :=
  set_env (mkEnv s (clock (env w))) w.

Definition emit (ev : Event) (w : World) : World :=
  mkWorld (flags w) (env w) (log w ++ [ev]) (queue w).

Definition isRunning : M bool := fun w => (inr (running (flags w)), w).
Definition isProcessing : M bool := fun w => (inr (processing (flags w)), w).
Definition isIdle : M bool := fun w => (inr (idle (flags w)), w).

Definition set_running (b : bool) : M unit := fun w =>
  (inr tt, set_flags (mkFlags b (processing (flags w)) (idle (flags w))) w).
Definition set_processing (b : bool) : M unit := fun w =>
  (inr tt, set_flags (mkFlags (running (flags w)) b (idle (flags w))) w).
Definition set_idle (b : bool) : M unit := fun w =>
  (inr tt, set_flags (mkFlags (running (flags w)) (processing (flags w)) b) w).

(** [moment()]: read the clock. *)
Definition moment : M Z := fun w => (inr (clock (env w)), w).

(** [await sleep(ms)]: the clock has advanced by [ms] when the method
    resumes. *)
Definition sleep (ms : Z) : M unit := fun w =>
  let w' := emit (EvSleep ms) w in
  (inr tt, set_env (mkEnv (db (env w')) (clock (env w') + Z.max 0 ms)) w').

(** [process.nextTick(callback)] *)
Definition nextTick (t : Task) : M unit := fun w =>
  (inr tt, mkWorld (flags w) (env w) (log w) (queue w ++ [t])).

(** [await hook(arg)] *)
Definition call {A} (ev : Event) (h : Hook A) (a : A) : M unit := fun w =>
  let w' := emit ev w in
  match h a (env w') with
  | (None, e') => (inr tt, set_env e' w')
  | (Some err, e') => (inl err, set_env e' w')
  end.

(** [if (hook) { await hook(arg) }] *)
Definition call_if_set {A} (ev : Event) (h : option (Hook A)) (a : A) : M unit :=
  match h with
  | Some f => call ev f a
  | None => ret tt
  end.

(** [await onNewJob(job)]: the log keeps the object as it was passed, the
    result is the object as the hook left it. *)
Definition call_job (h : JobHook) (job : Obj) : M Obj := fun w =>
  let w' := emit (EvOnNewJob job) w in
  match h job (env w') with
  | (None, job', e') => (inr job', set_env e' w')
  | (Some err, _, e') => (inl err, set_env e' w')
  end.

(** [if (onNewJob) { await onNewJob(job) }] *)
Definition call_job_if_set (h : option JobHook) (job : Obj) : M Obj :=
  match h with
  | Some f => call_job f job
  | None => ret job
  end.

(** *** Database statements

    Every statement sent to the database is journalled; it fails with
    [StoreError] when the connection is down. *)

Definition statement (q : Query) (s : Store) : Store :=
  mkStore (rows s) (online s) (journal s ++ [q]).

Definition with_rows (rs : list Obj) (s : Store) : Store :=
  mkStore rs (online s) (journal s).

Definition send (q : Query) : M unit := fun w =>
  let w' := set_db (statement q (db (env w))) w in
  if online (db (env w)) then (inr tt, w') else (inl StoreError, w').

Definition read_rows : M (list Obj) := fun w => (inr (rows (db (env w))), w).

Definition write_rows (rs : list Obj) : M unit := fun w =>
  (inr tt, set_db (with_rows rs (db (env w))) w).

(** [findOne(entity, { where })]: the first row of the table that
    satisfies the clause, as a fresh object, or [undefined]. *)
Definition findOne (wh : Where) : M (option Obj) :=
  send (QFindOne wh) ;;
  rs <- read_rows ;;
  ret (find_row wh rs).

(** [update(entity, id, fields)] *)
Definition update (id : Value) (fields : Obj) : M unit :=
  send (QUpdate id fields) ;;
  rs <- read_rows ;;
  write_rows (update_rows id fields rs).

(** [delete(id)] *)
Definition delete_ (id : Value) : M unit :=
  send (QDelete id) ;;
  rs <- read_rows ;;
  write_rows (delete_rows id rs).

(** [getConnection().transaction(async entityManager => ...)]: commit when
    the callback returns, roll the rows back and rethrow when it throws. *)
Definition transaction {A} (fn : M A) : M A :=
  send QBegin ;;
  saved <- read_rows ;;
  try_catch
    (a <- fn ;; send QCommit ;; ret a)
    (fun e => fun w =>
       (inl e, set_db (with_rows saved (statement QRollback (db (env w)))) w)).

(** ** External libraries: moment's parser and cron-parser

    [moment_X v] is [moment(v, 'X')], in milliseconds, [None] for an
    invalid date.  [parseExpression expr currentDate endDate] builds the
    iterator or throws; [interval_next] is [interval.next().toDate()] in
    milliseconds, and throws when no occurrence is left before the end
    date. *)
Class Libraries : Type := {
  Interval : Type;
  moment_X : Value -> option Z;
  parseExpression : Value -> option Z -> Value -> Err + Interval;
  interval_next : Interval -> Err + Z
}.

Definition lift {A} (r : Err + A) : M A := fun w => (r, w).

(** ** Configuration *)

(** [this.config] after the constructor has merged the defaults. *)
Record SchedulerConfig : Type := mkConfig {
  nextDelay : Z;
  idleDelay : Z;
  lockDuration : Z;
  sleepUntilFieldPath : string;
  intervalFieldPath : string;
  repeatUntilFieldPath : string;
  autoRemoveFieldPath : string;
  onNewJob : option JobHook;
  onStart : option (Hook unit);
  onStop : option (Hook unit);
  onIdle : option (Hook unit);
  onError : Hook Err
}.

(** The constructor argument: every field is optional. *)
Record Options : Type := mkOptions {
  opt_nextDelay : option Z;
  opt_idleDelay : option Z;
  opt_lockDuration : option Z;
  opt_sleepUntilFieldPath : option string;
  opt_intervalFieldPath : option string;
  opt_repeatUntilFieldPath : option string;
  opt_autoRemoveFieldPath : option string;
  opt_onNewJob : option JobHook;
  opt_onStart : option (Hook unit);
  opt_onStop : option (Hook unit);
  opt_onIdle : option (Hook unit);
  opt_onError : option (Hook Err)
}.

(** [console.error]: neither throws nor touches the environment. *)
Definition quiet {A} : Hook A := fun _ e => (None, e).

(** [(doc) => doc]: leaves the job object and the environment alone. *)
Definition pass : JobHook := fun job e => (None, job, e).

(** [new Scheduler(config)] *)
Definition constructor (o : Options) : SchedulerConfig := {|
  nextDelay := default 0 (opt_nextDelay o);
  idleDelay := default 10000 (opt_idleDelay o);
  lockDuration := default 600000 (opt_lockDuration o);
  sleepUntilFieldPath := default "sleepUntil"%string (opt_sleepUntilFieldPath o);
  intervalFieldPath := default "interval"%string (opt_intervalFieldPath o);
  repeatUntilFieldPath := default "repeatUntil"%string (opt_repeatUntilFieldPath o);
  autoRemoveFieldPath := default "autoRemove"%string (opt_autoRemoveFieldPath o);
  onNewJob := Some (default pass (opt_onNewJob o));
  onStart := opt_onStart o;
  onStop := opt_onStop o;
  onIdle := opt_onIdle o;
  onError := default quiet (opt_onError o)
|}.

Definition initial : Flags := mkFlags false false false.

(** ** The scheduler *)

Section Scheduler.

Context {libs : Libraries}.
Variable cfg : SchedulerConfig.

(** Locks the next job and returns it if it exists. *)
Definition checkNextAndLock : M (option Obj) :=
  now <- moment ;;
  let lockDuration := formatX (now + lockDuration cfg) in
  let currentDate := formatX now in
  transaction (
    origJob <- findOne (literal [
      (sleepUntilFieldPath cfg, Not VNull);
      (sleepUntilFieldPath cfg, LessThan (VStr currentDate)) ]) ;;
    match origJob with
    | Some job =>
        update (get job key)
               (literal [(sleepUntilFieldPath cfg, VStr lockDuration)]) ;;
        ret origJob
    | None => ret origJob
    end).

(** The next timestamp at which the job can be processed, or [null] when
    the job has expired. *)
Definition getNextStart (job : Obj) : M (option string) :=
  if negb (truthy (VStr (intervalFieldPath cfg))) then ret None
  else
    let available := moment_X (get job (sleepUntilFieldPath cfg)) in
    let future := available in
    try_catch
      (interval <- lift (parseExpression (get job (intervalFieldPath cfg))
                                         future
                                         (get job (repeatUntilFieldPath cfg))) ;;
       occurrence <- lift (interval_next interval) ;;
       let next := formatX occurrence in
       t <- moment ;;
       let now := formatX t in
       ret (Some (if str_lt next now then now else next)))
      (fun _ => ret None).

(** Re-arms the job, marks it expired, or deletes it. *)
Definition rescheduleSleep (job : Obj) : M unit :=
  nextStart <- getNextStart job ;;
  if negb (truthy_str nextStart) && truthy (get job (autoRemoveFieldPath cfg))
  then delete_ (get job key)
  else if negb (truthy_str nextStart)
  then update (get job key) (literal [(sleepUntilFieldPath cfg, VNull)])
  else update (get job key) (literal [(sleepUntilFieldPath cfg, of_str nextStart)]).

(** The branch of [tick] that finds no job: go to idle. *)
Definition go_idle : M unit :=
  set_processing false ;;
  i <- isIdle ;;
  (if negb i
   then set_idle true ;; call_if_set EvOnIdle (onIdle cfg) tt
   else ret tt) ;;
  sleep (idleDelay cfg).

(** The branch of [tick] that has claimed a job.  The hook and
    [rescheduleSleep] are given the same object, so the latter sees the
    job as the hook left it. *)
Definition process (job : Obj) : M unit :=
  set_idle false ;;
  job <- call_job_if_set (onNewJob cfg) job ;;
  rescheduleSleep job ;;
  set_processing false.

(** The body of the [try] block of [tick]. *)
Definition tick_try : M unit :=
  job <- checkNextAndLock ;;
  match job with
  | None => go_idle
  | Some job => process job
  end.

(** [tick] from its second [running] test onwards, that is, from the
    point where it resumes after [await sleep(nextDelay)]. *)
Definition tick_resume : M unit :=
  r <- isRunning ;;
  if negb r then ret tt
  else
    set_processing true ;;
    try_catch tick_try (fun err => call (EvOnError err) (onError cfg) err) ;;
    nextTick TaskTick.

(** [tick] up to and including [await sleep(nextDelay)]; the boolean tells
    whether the method goes on. *)
Definition tick_enter : M bool :=
  r <- isRunning ;;
  if negb r then ret false
  else sleep (nextDelay cfg) ;; ret true.

(** The heartbeat. *)
Definition tick : M unit :=
  go <- tick_enter ;;
  if go then tick_resume else ret tt.

Definition start : M unit :=
  r <- isRunning ;;
  if negb r
  then
    set_running true ;;
    call_if_set EvOnStart (onStart cfg) tt ;;
    nextTick TaskTick
  else ret tt.

Definition stop : M unit :=
  set_running false ;;
  p <- isProcessing ;;
  if p
  then sleep 300 ;; nextTick TaskStop
  else call_if_set EvOnStop (onStop cfg) tt.

End Scheduler.

(** ** An executable instance of the libraries

    Enough of moment and cron-parser to evaluate the scheduler: canonical
    decimal timestamps, and the expressions "every second", "every minute"
    and "every five minutes".  A [Date] is a [VNum] of milliseconds. *)

Module Demo.

Record interval : Type := mkInterval {
  period : Z;
  currentDate : Z;
  endDate : option Z
}.

Definition unix_of (v : Value) : option Z :=
  match v with
  | VStr s =>
      if String.eqb s "" then None
      else
        match NilEmpty.uint_of_string s with
        | Some u => Some (1000 * Z.of_N (N.of_uint u))
        | None => None
        end
  | _ => None
  end.

Definition period_of (expr : Value) : option Z :=
  match expr with
  | VStr s =>
      if String.eqb s "* * * * * *" then Some 1000
      else if String.eqb s "* * * * *" then Some 60000
      else if String.eqb s "*/5 * * * *" then Some 300000
      else None
  | _ => None
  end.

Definition bound_of (endDate : Value) : option (option Z) :=
  match endDate with
  | VUndef | VNull => Some None
  | VNum ms => Some (Some ms)
  | _ => None
  end.

Definition parse (expr : Value) (cur : option Z) (endDate : Value)
  : Err + interval :=
  match period_of expr, cur, bound_of endDate with
  | Some p, Some c, Some e => inr (mkInterval p c e)
  | _, _, _ => inl CronError
  end.

Definition next (i : interval) : Err + Z :=
  let occurrence := (currentDate i / period i + 1) * period i in
  match endDate i with
  | Some e => if e <? occurrence then inl CronError else inr occurrence
  | None => inr occurrence
  end.

#[global] Instance libs : Libraries := {|
  Interval := interval;
  moment_X := unix_of;
  parseExpression := parse;
  interval_next := next
|}.

Definition row (id : Z) (props : list (string * Value)) : Obj :=
  literal ((key, VNum id) :: props).

Definition store (rs : list Obj) : Store := mkStore rs true [].

Definition world (f : Flags) (rs : list Obj) (now : Z) : World :=
  mkWorld f (mkEnv (store rs) now) [] [].

(** The configuration used by the tests: the defaults. *)
Definition options : Options :=
  mkOptions None None None None None None None None None None None None.

Definition config : SchedulerConfig := constructor options.

Definition failing {A} (tag : string) : Hook A := fun _ e => (Some (HookError tag), e).

Definition failing_job (tag : string) : JobHook :=
  fun job e => (Some (HookError tag), job, e).

(** A job handler that sets the [autoRemove] property of the job it is
    given. *)
Definition discarding : JobHook :=
  fun job e => (None, <["autoRemove"%string := VBool true]> job, e).

(** A job handler that always throws, with the default error hook and
    an [onStop] hook. *)
Definition fragile : SchedulerConfig :=
  constructor
    (mkOptions None None None None None None None
               (Some (failing_job "onNewJob")) None (Some quiet) None None).

(** A job handler that always throws, and an error hook that throws too. *)
Definition brittle : SchedulerConfig :=
  constructor
    (mkOptions None None None None None None None
               (Some (failing_job "onNewJob")) None None None
               (Some (failing "onError"))).

(** All five hooks set, none of them throwing. *)
Definition hooked : SchedulerConfig :=
  constructor
    (mkOptions None None None None None None None
               (Some pass) (Some quiet) (Some quiet) (Some quiet) (Some quiet)).

(** A job handler that marks every job for removal. *)
Definition tidy : SchedulerConfig :=
  constructor
    (mkOptions None None None None None None None
               (Some discarding) None None None None).

(** 2026-10-26T07:33:20.500Z *)
Definition now : Z := 1793000000500.

Definition started : Flags := mkFlags true false false.

(** A one-shot job that became due ten seconds ago. *)
Definition one_shot : Obj := row 1 [("sleepUntil"%string, VStr "1792999990")].

(** A job that recurs every second, due ten seconds ago. *)
Definition every_second : Obj :=
  row 2 [("sleepUntil"%string, VStr "1792999990");
         ("interval"%string, VStr "* * * * * *")].

(** A job that recurs every minute and is seeded with timestamp 0 so
    that it runs at once. *)
Definition every_minute : Obj :=
  row 3 [("sleepUntil"%string, VStr "0"); ("interval"%string, VStr "* * * * *")].

(** A job that is due on 2286-11-20, the first eleven-digit timestamp. *)
Definition far_future : Obj := row 4 [("sleepUntil"%string, VStr "10000000000")].

(** A job that is due in a hundred seconds. *)
Definition later : Obj := row 6 [("sleepUntil"%string, VStr "1793000100")].

(** An expired job that asks to be removed. *)
Definition disposable : Obj :=
  row 5 [("sleepUntil"%string, VStr "1792999990"); ("autoRemove"%string, VBool true)].

End Demo.

(** ** The event loop

    One step runs one waiting task to its next suspension point.  Timers and
    the next-tick queue may release the waiting tasks in any order. *)

Section Loop.

Context {libs : Libraries}.
Variable cfg : SchedulerConfig.

Definition run_task (t : Task) : M unit :=
  match t with
  | TaskTick => go <- tick_enter cfg ;; if go then nextTick TaskResume else ret tt
  | TaskResume => tick_resume cfg
  | TaskStop => stop cfg
  end.

Definition with_queue (q : list Task) (w : World) : World :=
  mkWorld (flags w) (env w) (log w) q.

Inductive step : World -> World -> Prop :=
| step_run (w : World) (t : Task) (before after : list Task) :
    queue w = before ++ t :: after ->
    step w (snd (run_task t (with_queue (before ++ after) w))).

Inductive steps : World -> World -> Prop :=
| steps_refl (w : World) : steps w w
| steps_next (w1 w2 w3 : World) : steps w1 w2 -> step w2 w3 -> steps w1 w3.

End Loop.

(** Number of times an event occurs in the log. *)
Definition fired (ev : Event) (w : World) : nat :=
  length (filter (fun e => e = ev) (log w)).

(** ** Vocabulary of the statements *)

Section Vocabulary.

Variable cfg : SchedulerConfig.

(** The clause that reaches the database. *)
Definition due (now : Z) : Where :=
  {[ sleepUntilFieldPath cfg := LessThan (VStr (formatX now)) ]}.

(** The partial update that locks a row. *)
Definition lock (now : Z) : Obj :=
  {[ sleepUntilFieldPath cfg := VStr (formatX (now + lockDuration cfg)) ]}.

Definition journalled (qs : list Query) (rs : list Obj) (w : World) : World :=
  set_db (mkStore rs (online (db (env w))) (journal (db (env w)) ++ qs)) w.

(** What a statement does to the table. *)
Definition effect (q : Query) (rs : list Obj) : list Obj :=
  match q with
  | QUpdate id fields => update_rows id fields rs
  | QDelete id => delete_rows id rs
  | _ => rs
  end.

Context {libs : Libraries}.

(** The answer of the cron engine for a job: the next occurrence after the
    job's due time and within its [repeatUntil] bound, or the error raised
    by [parseExpression] or by [next]. *)
Definition candidate (job : Obj) : Err + Z :=
  match parseExpression (get job (intervalFieldPath cfg))
                        (moment_X (get job (sleepUntilFieldPath cfg)))
                        (get job (repeatUntilFieldPath cfg)) with
  | inl e => inl e
  | inr interval => interval_next interval
  end.

(** The statement by which [rescheduleSleep] settles a job, given the
    result of [getNextStart]. *)
Definition disposition (job : Obj) (nextStart : option string) : Query :=
  match nextStart with
  | None =>
      if truthy (get job (autoRemoveFieldPath cfg))
      then QDelete (get job key)
      else QUpdate (get job key) {[ sleepUntilFieldPath cfg := VNull ]}
  | Some s => QUpdate (get job key) {[ sleepUntilFieldPath cfg := VStr s ]}
  end.

End Vocabulary.

(** [next < now ? now : next] *)
Definition clamp (next now : string) : string :=
  if str_lt next now then now else next.

(** Two worlds that differ at most in the environment: hooks and database
    statements cannot reach the flags, the log or the queue. *)
Definition same_scheduler (w w' : World) : Prop :=
  flags w' = flags w /\ log w' = log w /\ queue w' = queue w.

(** A computation that leaves an observation of the world unchanged,
    whatever its outcome, or at least when it throws. *)
Definition keeps {A X} (obs : World -> X) (m : M A) : Prop :=
  forall w, obs (snd (m w)) = obs w.

Definition keeps_when_thrown {A X} (obs : World -> X) (m : M A) : Prop :=
  forall w e w', m w = (inl e, w') -> obs w' = obs w.

Definition processing_flag (w : World) : bool := processing (flags w).

Definition idle_flag (w : World) : bool := idle (flags w).

Section Statements.

Context {libs : Libraries}.
Variable cfg : SchedulerConfig.

(** The world in which the [try] block of a tick starts: [nextDelay] has
    been slept and [processing] has been set. *)
Definition entered (w : World) : World :=
  snd (set_processing true (snd (sleep (nextDelay cfg) w))).

(** The [catch] clause of [tick]. *)
Definition handler (err : Err) : M unit :=
  call (EvOnError err) (onError cfg) err.

(** "Any error raised in the try block of a tick is delivered to
    [onError], and the next tick is scheduled afterwards." *)
Definition errors_never_end_the_loop (w : World) : Prop :=
  forall (err : Err) (w1 : World),
    running (flags w) = true ->
    tick_try cfg (entered w) = (inl err, w1) ->
    In (EvOnError err) (log (snd (tick cfg w))) /\
    In TaskTick (queue (snd (tick cfg w))).

(** "Calling [stop] again on a stopped and drained scheduler has no
    further observable effect": no hook runs, nothing is slept. *)
Definition stop_again_is_silent (w : World) : Prop :=
  running (flags w) = false ->
  processing (flags w) = false ->
  log (snd (stop cfg w)) = log w.



End Statements.

(** *** Contract of the cron engine

    cron-parser raises on a malformed expression, which includes a missing
    one, and otherwise raises only when no occurrence is left before the
    end date. *)

Definition rejects_absent (libs : Libraries) : Prop :=
  forall (expr : Value) (cur : option Z) (endDate : Value),
    is_null expr = true -> exists e, parseExpression expr cur endDate = inl e.



(** *** Further vocabulary *)

Section MoreStatements.

Variable cfg : SchedulerConfig.

(** The test the claim query applies to a row at clock [now]. *)
Definition due_now (now : Z) (row : Obj) : bool :=
  sql_lt (get row (sleepUntilFieldPath cfg)) (VStr (formatX now)).

(** The same world, read at another time. *)
Definition at_clock (c : Z) (w : World) : World :=
  set_env (mkEnv (db (env w)) c) w.


(** A scheduler that is stopped and drained, with no retry of [stop]
    waiting. *)
Definition halted (w : World) : Prop :=
  running (flags w) = false /\
  processing (flags w) = false /\
  ~ In TaskStop (queue w).

End MoreStatements.
(** * Properties *)

(** ** Object literals and the [where] clause *)

Lemma literal_one {V} (k : string) (a : V) : literal [(k, a)] = {[k := a]}.
Proof. reflexivity. Qed.

(** A computed key written twice: the first property is overwritten. *)
Lemma literal_twice {V} (k : string) (a b : V) :
  literal [(k, a); (k, b)] = {[k := b]}.
Proof. unfold literal. simpl. rewrite insert_insert_eq. reflexivity. Qed.

Lemma satisfies_singleton (k : string) (op : FindOperator) (row : Obj) :
  satisfies {[k := op]} row = holds op (get row k).
Proof.
  unfold satisfies. rewrite map_to_list_singleton. simpl. apply andb_true_r.
Qed.

Lemma sql_lt_text (x : Value) (c : string) :
  sql_lt x (VStr c) = true -> exists s, x = VStr s /\ str_lt s c = true.
Proof. destruct x; simpl; try discriminate. eauto. Qed.

Lemma find_row_Some (wh : Where) (rs : list Obj) (job : Obj) :
  find_row wh rs = Some job -> In job rs /\ satisfies wh job = true.
Proof. unfold find_row. apply find_some. Qed.

Lemma get_union_singleton (k : string) (v : Value) (r : Obj) :
  get ({[k := v]} ∪ r) k = v.
Proof.
  unfold get. rewrite lookup_union_l'; rewrite lookup_singleton_eq; eauto.
Qed.

Lemma get_union_singleton_ne (k k' : string) (v : Value) (r : Obj) :
  k <> k' -> get ({[k := v]} ∪ r) k' = get r k'.
Proof.
  intros. unfold get. rewrite lookup_union_r; [reflexivity|].
  apply lookup_singleton_ne; assumption.
Qed.

(** ** The claim query *)

Section Claim.

Context {libs : Libraries}.
Variable cfg : SchedulerConfig.

(** [checkNextAndLock] in closed form. *)
Lemma checkNextAndLock_eq (w : World) :
  checkNextAndLock cfg w =
  let s := db (env w) in
  let now := clock (env w) in
  if online s then
    match find_row (due cfg now) (rows s) with
    | Some job =>
        (inr (Some job),
         journalled [QBegin; QFindOne (due cfg now);
                     QUpdate (get job key) (lock cfg now); QCommit]
                    (update_rows (get job key) (lock cfg now) (rows s)) w)
    | None =>
        (inr None, journalled [QBegin; QFindOne (due cfg now); QCommit] (rows s) w)
    end
  else (inl StoreError, journalled [QBegin] (rows s) w).
Proof.
  destruct w as [f [[rs on j] c] l q].
  unfold checkNextAndLock, transaction, findOne, update, try_catch, bind,
    moment, send, read_rows, write_rows, ret, journalled. simpl.
  rewrite literal_twice. fold (due cfg c). rewrite literal_one. fold (lock cfg c).
  destruct on; simpl; [|reflexivity].
  destruct (find_row (due cfg c) rs) as [job|]; simpl;
    unfold set_db, set_env, statement, with_rows; simpl;
    rewrite <- !app_assoc; reflexivity.
Qed.

(** A returned row carries a string in its due field, and that string is
    below the current timestamp in the order of strings: the NULL rows are
    excluded by the comparison itself, as the [Not(null)] property of the
    literal is overwritten. *)
Lemma checkNextAndLock_text_order (w w' : World) (job : Obj) :
  checkNextAndLock cfg w = (inr (Some job), w') ->
  In job (rows (db (env w))) /\
  exists s, get job (sleepUntilFieldPath cfg) = VStr s /\
            str_lt s (formatX (clock (env w))) = true.
Proof.
  rewrite checkNextAndLock_eq. cbv zeta.
  destruct (online (db (env w))); [|discriminate].
  destruct (find_row _ _) as [j|] eqn:Hfind; [|discriminate].
  intros [= -> _]. apply find_row_Some in Hfind as [Hin Hsat].
  split; [assumption|].
  unfold due in Hsat. rewrite satisfies_singleton in Hsat.
  apply sql_lt_text in Hsat. assumption.
Qed.

End Claim.

Section Snapshot.

Context {libs : Libraries}.
Variable cfg : SchedulerConfig.

Lemma update_rows_In (id : Value) (fields r : Obj) (rs : list Obj) :
  In r (update_rows id fields rs) ->
  (exists r0, In r0 rs /\ sql_eq (get r0 key) id = true /\ r = fields ∪ r0) \/
  (In r rs /\ sql_eq (get r key) id = false).
Proof.
  unfold update_rows. rewrite in_map_iff. intros (r0 & Hr & Hin).
  destruct (sql_eq (get r0 key) id) eqn:E; subst r; eauto.
Qed.

Lemma update_rows_hit (id : Value) (fields r0 : Obj) (rs : list Obj) :
  In r0 rs -> sql_eq (get r0 key) id = true ->
  In (fields ∪ r0) (update_rows id fields rs).
Proof.
  intros Hin E. unfold update_rows. apply in_map_iff. exists r0.
  rewrite E. auto.
Qed.

Lemma sql_eq_refl (v : Value) : is_null v = false -> sql_eq v v = true.
Proof.
  intros H. unfold sql_eq. rewrite H. simpl. apply bool_decide_eq_true. reflexivity.
Qed.

(** C2. When [checkNextAndLock] returns a job, the returned object is the
    row as it was found, before the write: it is a row of the table as it
    stood when the method was called.  Between BEGIN and COMMIT of one
    transaction the method has sent the query and one update, by the id of
    that row, which sets the due field to the timestamp of [now +
    lockDuration]; afterwards every stored row with that id carries the
    lock value, and the stored copy of the returned row is among them. *)
Theorem checkNextAndLock_returns_snapshot (w w' : World) (job : Obj) :
  checkNextAndLock cfg w = (inr (Some job), w') ->
  let now := clock (env w) in
  let locked := VStr (formatX (now + lockDuration cfg)) in
  find_row (due cfg now) (rows (db (env w))) = Some job /\
  journal (db (env w')) =
    journal (db (env w)) ++
      [QBegin; QFindOne (due cfg now);
       QUpdate (get job key) {[ sleepUntilFieldPath cfg := locked ]}; QCommit] /\
  rows (db (env w')) =
    update_rows (get job key) {[ sleepUntilFieldPath cfg := locked ]}
                (rows (db (env w))) /\
  (forall r, In r (rows (db (env w'))) ->
             sql_eq (get r key) (get job key) = true ->
             get r (sleepUntilFieldPath cfg) = locked) /\
  (is_null (get job key) = false ->
   In ({[ sleepUntilFieldPath cfg := locked ]} ∪ job) (rows (db (env w')))).
Proof.
  rewrite checkNextAndLock_eq. cbv zeta.
  destruct (online (db (env w))); [|discriminate].
  destruct (find_row _ _) as [j|] eqn:Hfind; [|discriminate].
  intros [= -> <-]. unfold journalled, lock; simpl.
  repeat split; trivial.
  - intros r Hin Hid. apply update_rows_In in Hin as [(r0 & _ & _ & ->)|[_ Hne]].
    + apply get_union_singleton.
    + congruence.
  - intros Hid. apply update_rows_hit.
    + apply find_row_Some in Hfind. tauto.
    + apply sql_eq_refl. assumption.
Qed.

End Snapshot.

Lemma checkNextAndLock_returns_snapshot_witness :
  let w := Demo.world Demo.started [Demo.one_shot] Demo.now in
  let w' := snd (checkNextAndLock Demo.config w) in
  let locked := VStr (formatX (clock (env w) + lockDuration Demo.config)) in
  fst (checkNextAndLock Demo.config w) = inr (Some Demo.one_shot) /\
  get Demo.one_shot "sleepUntil" = VStr "1792999990" /\
  locked = VStr "1793000600" /\
  In ({[ sleepUntilFieldPath Demo.config := locked ]} ∪ Demo.one_shot)
     (rows (db (env w'))).
Proof.
  intros w w' locked.
  assert (H : checkNextAndLock Demo.config w = (inr (Some Demo.one_shot), w'))
    by (vm_compute; reflexivity).
  destruct (checkNextAndLock_returns_snapshot Demo.config w w' Demo.one_shot H)
    as (_ & _ & _ & _ & Hin).
  split; [rewrite H; reflexivity|].
  split; [vm_compute; reflexivity|].
  split; [vm_compute; reflexivity|].
  apply Hin. vm_compute. reflexivity.
Defined.

(** ** Timestamps as strings *)

Lemma ascii_compare_refl (a : ascii) : Ascii.compare a a = Eq.
Proof.
  pose proof (Ascii.compare_antisym a a) as H.
  destruct (Ascii.compare a a); simpl in H; congruence.
Qed.

Lemma string_compare_refl (s : string) : String.compare s s = Eq.
Proof.
  induction s as [|a s IH]; simpl; [reflexivity|].
  rewrite ascii_compare_refl. assumption.
Qed.

Lemma str_lt_irrefl (s : string) : str_lt s s = false.
Proof. unfold str_lt, String.ltb. rewrite string_compare_refl. reflexivity. Qed.

Lemma string_of_uint_nonempty (d : uint) :
  d <> Nil -> NilEmpty.string_of_uint d <> ""%string.
Proof. destruct d; simpl; congruence. Qed.

Lemma decimal_nonempty (n : Z) : decimal n <> ""%string.
Proof.
  unfold decimal. destruct n as [|p|p]; simpl; try discriminate.
  apply string_of_uint_nonempty, DecimalPos.Unsigned.to_uint_nonnil.
Qed.

Lemma formatX_truthy (ms : Z) : negb (String.eqb (formatX ms) "") = true.
Proof.
  apply negb_true_iff, String.eqb_neq, decimal_nonempty.
Qed.

(** ** The interval computation *)

Section NextStart.

Context {libs : Libraries}.
Variable cfg : SchedulerConfig.

Lemma clamp_truthy (a b : Z) : truthy_str (Some (clamp (formatX a) (formatX b))) = true.
Proof. unfold clamp. simpl. destruct (str_lt _ _); apply formatX_truthy. Qed.

Lemma clamp_not_below (next now : string) : str_lt (clamp next now) now = false.
Proof.
  unfold clamp. destruct (str_lt next now) eqn:E; [apply str_lt_irrefl | exact E].
Qed.

(** [getNextStart] in closed form: it always returns, and leaves the world
    as it was. *)
Lemma getNextStart_eq (job : Obj) (w : World) :
  getNextStart cfg job w =
  (inr (if String.eqb (intervalFieldPath cfg) "" then None
        else match candidate cfg job with
             | inl _ => None
             | inr t => Some (clamp (formatX t) (formatX (clock (env w))))
             end), w).
Proof.
  unfold getNextStart, candidate, truthy. rewrite negb_involutive.
  destruct (String.eqb (intervalFieldPath cfg) ""); [reflexivity|].
  unfold try_catch, bind, lift, moment, ret.
  destruct (parseExpression _ _ _) as [e|i]; [reflexivity|].
  destruct (interval_next i) as [e|t]; reflexivity.
Qed.

Lemma getNextStart_truthy (job : Obj) (w : World) (s : string) :
  fst (getNextStart cfg job w) = inr (Some s) -> truthy_str (Some s) = true.
Proof.
  rewrite getNextStart_eq. simpl.
  destruct (String.eqb _ _); [discriminate|].
  destruct (candidate cfg job); [discriminate|].
  intros [= <-]. apply clamp_truthy.
Qed.

(** Whatever [getNextStart] returns is not below the current timestamp in
    the order in which the code compares the two, the order of strings. *)
Lemma getNextStart_not_below_text (job : Obj) (w : World) (s : string) :
  fst (getNextStart cfg job w) = inr (Some s) ->
  str_lt s (formatX (clock (env w))) = false.
Proof.
  rewrite getNextStart_eq. simpl.
  destruct (String.eqb _ _); [discriminate|].
  destruct (candidate cfg job); [discriminate|].
  intros [= <-]. apply clamp_not_below.
Qed.

(** C6. [getNextStart] never throws and has no effect.  It returns [null]
    exactly when the job does not recur (no interval field is configured,
    or the job's interval is unset) or the cron engine raises, be it on the
    expression or because no occurrence is left before [repeatUntil]. *)
Theorem getNextStart_none (job : Obj) (w : World) :
  rejects_absent libs ->
  exists r, getNextStart cfg job w = (inr r, w) /\
    (r = None <->
       intervalFieldPath cfg = ""%string \/
       is_null (get job (intervalFieldPath cfg)) = true \/
       exists e, candidate cfg job = inl e).
Proof.
  intros Hreject. rewrite getNextStart_eq. eexists. split; [reflexivity|].
  destruct (String.eqb_spec (intervalFieldPath cfg) "") as [E|E].
  - split; auto.
  - split.
    + destruct (candidate cfg job) as [e|t]; [eauto | discriminate].
    + intros [H|[H|[e H]]]; [contradiction| |rewrite H; reflexivity].
      unfold candidate.
      destruct (Hreject (get job (intervalFieldPath cfg))
                        (moment_X (get job (sleepUntilFieldPath cfg)))
                        (get job (repeatUntilFieldPath cfg)) H) as [e ->].
      reflexivity.
Qed.

End NextStart.

Lemma demo_rejects_absent : rejects_absent Demo.libs.
Proof.
  intros expr cur endDate H. exists CronError.
  destruct expr; try discriminate; reflexivity.
Qed.


Lemma getNextStart_none_witness :
  let w := Demo.world Demo.started [Demo.one_shot] Demo.now in
  getNextStart Demo.config Demo.one_shot w = (inr None, w) /\
  getNextStart Demo.config Demo.every_second w = (inr (Some "1793000000"%string), w).
Proof.
  intros w. split; [|reflexivity].
  destruct (getNextStart_none Demo.config Demo.one_shot w demo_rejects_absent)
    as (r & Hr & Hnone).
  rewrite Hr. f_equal. f_equal. apply Hnone. right. left. reflexivity.
Defined.

(** ** Rescheduling *)

Section Reschedule.

Context {libs : Libraries}.
Variable cfg : SchedulerConfig.

Lemma update_eq (id : Value) (fields : Obj) (w : World) :
  update id fields w =
  if online (db (env w))
  then (inr tt, journalled [QUpdate id fields]
                  (update_rows id fields (rows (db (env w)))) w)
  else (inl StoreError, journalled [QUpdate id fields] (rows (db (env w))) w).
Proof.
  destruct w as [f0 [[rs on j] c] l q0].
  unfold update, bind, send, read_rows, write_rows, journalled; simpl.
  destruct on; reflexivity.
Qed.

Lemma delete_eq (id : Value) (w : World) :
  delete_ id w =
  if online (db (env w))
  then (inr tt, journalled [QDelete id] (delete_rows id (rows (db (env w)))) w)
  else (inl StoreError, journalled [QDelete id] (rows (db (env w))) w).
Proof.
  destruct w as [f0 [[rs on j] c] l q0].
  unfold delete_, bind, send, read_rows, write_rows, journalled; simpl.
  destruct on; reflexivity.
Qed.

(** [rescheduleSleep] in closed form: one statement, chosen by the result
    of [getNextStart] and the job's [autoRemove] flag. *)
Lemma rescheduleSleep_eq (job : Obj) (w : World) :
  exists nextStart,
    getNextStart cfg job w = (inr nextStart, w) /\
    rescheduleSleep cfg job w =
    let q := disposition cfg job nextStart in
    if online (db (env w))
    then (inr tt, journalled [q] (effect q (rows (db (env w)))) w)
    else (inl StoreError, journalled [q] (rows (db (env w))) w).
Proof.
  pose proof (getNextStart_truthy cfg job w) as Htruthy.
  destruct (getNextStart cfg job w) as [r w0] eqn:Hnext.
  pose proof Hnext as Hnext'. rewrite getNextStart_eq in Hnext'.
  injection Hnext' as Hr Hw. subst w0.
  destruct r as [e|nextStart]; [discriminate|].
  exists nextStart. split; [reflexivity|].
  unfold rescheduleSleep, bind at 1. rewrite Hnext.
  destruct nextStart as [s|].
  - rewrite (Htruthy s eq_refl). cbn [negb andb of_str].
    rewrite literal_one, update_eq. reflexivity.
  - simpl. destruct (truthy (get job (autoRemoveFieldPath cfg))).
    + rewrite delete_eq. reflexivity.
    + rewrite literal_one, update_eq. reflexivity.
Qed.

(** C3. For every job, [rescheduleSleep] sends exactly one statement to
    the store, by the id of the job: a delete when [getNextStart] gives
    nothing and the job's [autoRemove] flag is set; an update of the due
    field to NULL when it gives nothing and the flag is not set; an update
    of the due field to the value of [getNextStart] otherwise.  With the
    connection up the table changes by that statement and nothing else. *)
Theorem rescheduleSleep_three_way (job : Obj) (w : World) :
  exists nextStart,
    getNextStart cfg job w = (inr nextStart, w) /\
    let id := get job key in
    let q :=
      match nextStart with
      | None =>
          if truthy (get job (autoRemoveFieldPath cfg))
          then QDelete id
          else QUpdate id {[ sleepUntilFieldPath cfg := VNull ]}
      | Some s => QUpdate id {[ sleepUntilFieldPath cfg := VStr s ]}
      end in
    let w' := snd (rescheduleSleep cfg job w) in
    journal (db (env w')) = journal (db (env w)) ++ [q] /\
    rows (db (env w')) =
      (if online (db (env w)) then effect q (rows (db (env w)))
       else rows (db (env w))) /\
    fst (rescheduleSleep cfg job w) =
      (if online (db (env w)) then inr tt else inl StoreError).
Proof.
  destruct (rescheduleSleep_eq job w) as (nextStart & Hnext & Heq).
  exists nextStart. split; [assumption|].
  cbv zeta in *. rewrite Heq. unfold disposition.
  destruct (online (db (env w))); simpl; auto.
Qed.


End Reschedule.


(** ** What the building blocks leave untouched *)

Section Frames.

Context {libs : Libraries}.
Variable cfg : SchedulerConfig.

Lemma same_scheduler_refl (w : World) : same_scheduler w w.
Proof. repeat split. Qed.

Lemma same_scheduler_journalled (qs : list Query) (rs : list Obj) (w : World) :
  same_scheduler w (journalled qs rs w).
Proof. repeat split. Qed.

Lemma checkNextAndLock_frame (w : World) :
  same_scheduler w (snd (checkNextAndLock cfg w)).
Proof.
  rewrite checkNextAndLock_eq. cbv zeta.
  destruct (online _); [destruct (find_row _ _)|]; apply same_scheduler_journalled.
Qed.

Lemma rescheduleSleep_frame (job : Obj) (w : World) :
  same_scheduler w (snd (rescheduleSleep cfg job w)).
Proof.
  destruct (rescheduleSleep_eq cfg job w) as (n & _ & ->). cbv zeta.
  destruct (online _); apply same_scheduler_journalled.
Qed.

Lemma call_frame {A} (ev : Event) (h : Hook A) (a : A) (w : World) :
  flags (snd (call ev h a w)) = flags w /\
  log (snd (call ev h a w)) = log w ++ [ev] /\
  queue (snd (call ev h a w)) = queue w.
Proof. unfold call. destruct (h a _) as [[e|] e']; repeat split. Qed.

Lemma call_if_set_frame {A} (ev : Event) (h : option (Hook A)) (a : A) (w : World) :
  flags (snd (call_if_set ev h a w)) = flags w /\
  log (snd (call_if_set ev h a w)) =
    log w ++ match h with Some _ => [ev] | None => [] end /\
  queue (snd (call_if_set ev h a w)) = queue w.
Proof.
  destruct h as [f|]; simpl; [apply call_frame|].
  rewrite app_nil_r. repeat split.
Qed.

Lemma call_job_if_set_frame (h : option JobHook) (job : Obj) (w : World) :
  flags (snd (call_job_if_set h job w)) = flags w /\
  log (snd (call_job_if_set h job w)) =
    log w ++ match h with Some _ => [EvOnNewJob job] | None => [] end /\
  queue (snd (call_job_if_set h job w)) = queue w.
Proof.
  destruct h as [f|]; simpl.
  - unfold call_job. destruct (f job _) as [[[e|] job'] e']; repeat split.
  - rewrite app_nil_r. repeat split.
Qed.

(** A tick that finds the scheduler stopped does nothing. *)
Lemma tick_stopped (w : World) :
  running (flags w) = false -> tick cfg w = (inr tt, w).
Proof.
  intros H. unfold tick, tick_enter, bind, isRunning. rewrite H. reflexivity.
Qed.

Lemma tick_resume_stopped (w : World) :
  running (flags w) = false -> tick_resume cfg w = (inr tt, w).
Proof.
  intros H. unfold tick_resume, bind, isRunning. rewrite H. reflexivity.
Qed.

(** A tick that finds the scheduler running sleeps, sets [processing],
    runs the [try] block with its handler and schedules the next tick. *)
Lemma tick_running (w : World) :
  running (flags w) = true ->
  tick cfg w =
  (try_catch (tick_try cfg) (handler cfg) ;; nextTick TaskTick) (entered cfg w).
Proof.
  intros H. unfold tick, tick_enter, tick_resume, entered, handler.
  destruct w as [[r p i] e l q]. simpl in H. subst r. reflexivity.
Qed.

Lemma entered_flags (w : World) :
  flags (entered cfg w) = mkFlags (running (flags w)) true (idle (flags w)).
Proof. reflexivity. Qed.

Lemma entered_log (w : World) :
  log (entered cfg w) = log w ++ [EvSleep (nextDelay cfg)].
Proof. reflexivity. Qed.

Lemma entered_queue (w : World) : queue (entered cfg w) = queue w.
Proof. reflexivity. Qed.

End Frames.

(** ** Frame rules for the monad *)

Section Keeps.

Context {A B X : Type}.
Variable obs : World -> X.

Lemma keeps_ret (a : A) : keeps obs (ret a).
Proof. intros w. reflexivity. Qed.

Lemma keeps_bind (m : M A) (k : A -> M B) :
  keeps obs m -> (forall a, keeps obs (k a)) -> keeps obs (bind m k).
Proof.
  intros Hm Hk w. unfold bind. specialize (Hm w).
  destruct (m w) as [[e|a] w1]; simpl in *; [assumption|].
  rewrite Hk. assumption.
Qed.

Lemma keeps_weaken (m : M A) : keeps obs m -> keeps_when_thrown obs m.
Proof. intros Hm w e w' H. specialize (Hm w). rewrite H in Hm. exact Hm. Qed.



End Keeps.

Section KeepsScheduler.

Context {libs : Libraries}.
Variable cfg : SchedulerConfig.

Lemma keeps_queue_checkNextAndLock : keeps queue (checkNextAndLock cfg).
Proof. intros w. apply checkNextAndLock_frame. Qed.

Lemma keeps_queue_rescheduleSleep (job : Obj) : keeps queue (rescheduleSleep cfg job).
Proof. intros w. apply rescheduleSleep_frame. Qed.

Lemma keeps_queue_call_if_set {A} (ev : Event) (h : option (Hook A)) (a : A) :
  keeps queue (call_if_set ev h a).
Proof. intros w. apply call_if_set_frame. Qed.

Lemma keeps_queue_call_job (h : option JobHook) (job : Obj) :
  keeps queue (call_job_if_set h job).
Proof. intros w. apply call_job_if_set_frame. Qed.


Lemma keeps_flag_checkNextAndLock : keeps processing_flag (checkNextAndLock cfg).
Proof.
  intros w. unfold processing_flag. f_equal. apply checkNextAndLock_frame.
Qed.


Lemma keeps_flag_call_if_set {A} (ev : Event) (h : option (Hook A)) (a : A) :
  keeps processing_flag (call_if_set ev h a).
Proof.
  intros w. unfold processing_flag. f_equal. apply call_if_set_frame.
Qed.

Lemma keeps_queue_go_idle : keeps queue (go_idle cfg).
Proof.
  unfold go_idle.
  apply keeps_bind; [intros w; reflexivity|]. intros _.
  apply keeps_bind; [intros w; reflexivity|]. intros i.
  apply keeps_bind; [|intros _ w; reflexivity].
  destruct (negb i); [|intros w; reflexivity].
  apply keeps_bind; [intros w; reflexivity|].
  intros _. apply keeps_queue_call_if_set.
Qed.

Lemma keeps_queue_process (job : Obj) : keeps queue (process cfg job).
Proof.
  unfold process.
  apply keeps_bind; [intros w; reflexivity|]. intros _.
  apply keeps_bind; [apply keeps_queue_call_job|]. intros job'.
  apply keeps_bind; [apply keeps_queue_rescheduleSleep|]. intros _.
  intros w. reflexivity.
Qed.

(** The [try] block schedules nothing. *)
Lemma keeps_queue_tick_try : keeps queue (tick_try cfg).
Proof.
  unfold tick_try. apply keeps_bind; [apply keeps_queue_checkNextAndLock|].
  intros [job|]; [apply keeps_queue_process | apply keeps_queue_go_idle].
Qed.

End KeepsScheduler.

(** ** Errors inside a tick *)

Section TickErrors.

Context {libs : Libraries}.
Variable cfg : SchedulerConfig.

(** C7, as amended.  When the [try] block of a tick throws, whether in the
    claim, in a hook or in the rescheduling, the error is passed to
    [onError]; and if [onError] returns, the tick completes and leaves
    exactly one new [tick] callback in the queue. *)
Theorem errors_reach_onError (w w1 : World) (err : Err) :
  running (flags w) = true ->
  tick_try cfg (entered cfg w) = (inl err, w1) ->
  fst (onError cfg err (env w1)) = None ->
  fst (tick cfg w) = inr tt /\
  log (snd (tick cfg w)) = log w1 ++ [EvOnError err] /\
  queue (snd (tick cfg w)) = queue w ++ [TaskTick].
Proof.
  intros Hrun Htry Hquiet.
  pose proof (keeps_queue_tick_try cfg (entered cfg w)) as Hq.
  rewrite Htry, entered_queue in Hq. simpl in Hq.
  rewrite (tick_running cfg w Hrun).
  unfold bind, try_catch. rewrite Htry. unfold handler, call.
  change (env (emit (EvOnError err) w1)) with (env w1).
  destruct (onError cfg err (env w1)) as [[e|] e']; [discriminate|].
  simpl. rewrite Hq. auto.
Qed.

(** When [onError] throws as well, the tick ends there: its promise is
    rejected and no further tick is scheduled. *)
Lemma onError_throws_loop_ends (w w1 : World) (err err' : Err) :
  running (flags w) = true ->
  tick_try cfg (entered cfg w) = (inl err, w1) ->
  fst (onError cfg err (env w1)) = Some err' ->
  fst (tick cfg w) = inl err' /\
  queue (snd (tick cfg w)) = queue w.
Proof.
  intros Hrun Htry Hthrow.
  pose proof (keeps_queue_tick_try cfg (entered cfg w)) as Hq.
  rewrite Htry, entered_queue in Hq. simpl in Hq.
  rewrite (tick_running cfg w Hrun).
  unfold bind, try_catch. rewrite Htry. unfold handler, call.
  change (env (emit (EvOnError err) w1)) with (env w1).
  destruct (onError cfg err (env w1)) as [[e|] e']; [|discriminate].
  simpl in *. injection Hthrow as ->. auto.
Qed.

End TickErrors.

Lemma errors_reach_onError_witness :
  let w := Demo.world Demo.started [Demo.one_shot] Demo.now in
  fst (tick Demo.fragile w) = inr tt /\
  queue (snd (tick Demo.fragile w)) = [TaskTick].
Proof.
  intros w.
  destruct (errors_reach_onError Demo.fragile w
              (snd (tick_try Demo.fragile (entered Demo.fragile w)))
              (HookError "onNewJob"))
    as (Hok & _ & Hqueue).
  - reflexivity.
  - vm_compute. reflexivity.
  - reflexivity.
  - split; [exact Hok | exact Hqueue].
Defined.

(** C7, as stated, fails: the job handler throws, the error is passed to
    an [onError] hook that throws in turn, and no next tick is scheduled. *)
Lemma errors_can_end_the_loop :
  ~ errors_never_end_the_loop Demo.brittle
      (Demo.world Demo.started [Demo.one_shot] Demo.now).
Proof.
  intros H.
  destruct (H (HookError "onNewJob")
              (snd (tick_try Demo.brittle
                      (entered Demo.brittle
                         (Demo.world Demo.started [Demo.one_shot] Demo.now)))))
    as [_ Hin].
  - reflexivity.
  - vm_compute. reflexivity.
  - vm_compute in Hin. exact Hin.
Qed.

(** ** The idle edge *)

Lemma fired_log_app (ev : Event) (w w' : World) (l : list Event) :
  log w' = log w ++ l ->
  fired ev w' = (fired ev w + length (filter (fun e => e = ev) l))%nat.
Proof. intros H. unfold fired. rewrite H, filter_app, length_app. reflexivity. Qed.

(** Counting one event in a log that is built by appending. *)
Ltac count_log :=
  unfold fired; simpl log;
  rewrite ?filter_app, ?length_app;
  repeat (rewrite filter_cons_True by reflexivity);
  repeat (rewrite filter_cons_False by discriminate);
  rewrite ?filter_nil; simpl length; try lia.

Lemma fired_log_eq (ev : Event) (w w' : World) :
  log w' = log w -> fired ev w' = fired ev w.
Proof. intros H. unfold fired. rewrite H. reflexivity. Qed.

Lemma try_catch_obs {A X} (obs : World -> X) (body : M A) (h : Err -> M A) (w : World) :
  (forall e, keeps obs (h e)) ->
  obs (snd (try_catch body h w)) = obs (snd (body w)).
Proof.
  intros Hh. unfold try_catch. destruct (body w) as [[e|a] w1]; simpl; [apply Hh | reflexivity].
Qed.

Section IdleEdge.

Context {libs : Libraries}.
Variable cfg : SchedulerConfig.

Lemma keeps_onIdle_count_call {A} (ev : Event) (h : option (Hook A)) (a : A) :
  ev <> EvOnIdle -> keeps (fired EvOnIdle) (call_if_set ev h a).
Proof.
  intros Hne w.
  destruct (call_if_set_frame ev h a w) as (_ & Hlog & _).
  rewrite (fired_log_app _ _ _ _ Hlog).
  destruct h; simpl; [|lia].
  rewrite filter_cons_False by assumption. simpl. lia.
Qed.

Lemma keeps_onIdle_count_handler (err : Err) : keeps (fired EvOnIdle) (handler cfg err).
Proof.
  intros w. unfold handler.
  apply (keeps_onIdle_count_call (EvOnError err) (Some (onError cfg)) err).
  discriminate.
Qed.

Lemma keeps_idle_handler (err : Err) : keeps idle_flag (handler cfg err).
Proof.
  intros w. unfold handler, idle_flag. f_equal. apply call_frame.
Qed.

Lemma keeps_onIdle_count_process (job : Obj) : keeps (fired EvOnIdle) (process cfg job).
Proof.
  unfold process.
  apply keeps_bind; [intros w; reflexivity|]. intros _.
  apply keeps_bind; [|intros job'].
  - intros w.
    destruct (call_job_if_set_frame (onNewJob cfg) job w) as (_ & Hlog & _).
    rewrite (fired_log_app _ _ _ _ Hlog).
    destruct (onNewJob cfg); count_log.
  - apply keeps_bind; [|intros _ w; reflexivity].
    intros w. apply fired_log_eq, rescheduleSleep_frame.
Qed.

(** Going idle: the flag ends up set, and [onIdle] has run once more
    exactly when the flag was clear before. *)
Lemma go_idle_edge (h : Hook unit) (w : World) :
  onIdle cfg = Some h ->
  idle_flag (snd (go_idle cfg w)) = true /\
  fired EvOnIdle (snd (go_idle cfg w)) =
    (fired EvOnIdle w + (if idle (flags w) then 0 else 1))%nat.
Proof.
  intros Hh. destruct w as [[r p i] e l q].
  unfold go_idle, bind, set_processing, isIdle, set_idle, sleep, ret, idle_flag.
  rewrite Hh. simpl. destruct i; simpl.
  - split; [reflexivity|]. count_log.
  - unfold call; simpl. destruct (h tt e) as [[err|] e']; simpl;
      (split; [reflexivity|]); count_log.
Qed.

Lemma go_idle_stays_idle (w : World) :
  idle (flags w) = true ->
  idle_flag (snd (go_idle cfg w)) = true /\
  fired EvOnIdle (snd (go_idle cfg w)) = fired EvOnIdle w.
Proof.
  intros Hi. destruct w as [[r p i] e l q]. simpl in Hi. subst i.
  unfold go_idle, bind, set_processing, isIdle, set_idle, sleep, ret, idle_flag.
  simpl. split; [reflexivity|]. count_log.
Qed.

Lemma entered_onIdle_count (w : World) :
  fired EvOnIdle (entered cfg w) = fired EvOnIdle w.
Proof.
  rewrite (fired_log_app _ _ _ _ (entered_log cfg w)). count_log.
Qed.

(** What a running tick leaves behind is what its [try] block leaves
    behind, as far as the idle flag and the calls of [onIdle] go. *)
Lemma tick_running_idle (w : World) :
  running (flags w) = true ->
  idle_flag (snd (tick cfg w)) = idle_flag (snd (tick_try cfg (entered cfg w))) /\
  fired EvOnIdle (snd (tick cfg w)) =
    fired EvOnIdle (snd (tick_try cfg (entered cfg w))).
Proof.
  intros Hrun. rewrite (tick_running cfg w Hrun).
  rewrite <- (try_catch_obs idle_flag (tick_try cfg) (handler cfg) _ keeps_idle_handler).
  rewrite <- (try_catch_obs (fired EvOnIdle) (tick_try cfg) (handler cfg) _
                keeps_onIdle_count_handler).
  unfold bind.
  destruct (try_catch (tick_try cfg) (handler cfg) (entered cfg w)) as [[e|[]] w2];
    split; reflexivity.
Qed.

Lemma process_clears_idle (job : Obj) (w : World) :
  idle_flag (snd (process cfg job w)) = false.
Proof.
  assert (Hrest : keeps idle_flag
            (job' <- call_job_if_set (onNewJob cfg) job ;;
             rescheduleSleep cfg job' ;; set_processing false)).
  { apply keeps_bind; [|intros job'; apply keeps_bind; [|intros _ v; reflexivity]].
    - intros v. unfold idle_flag. f_equal. apply call_job_if_set_frame.
    - intros v. unfold idle_flag. f_equal. apply rescheduleSleep_frame. }
  unfold process. unfold bind at 1. unfold set_idle at 1. cbv beta iota.
  rewrite Hrest. reflexivity.
Qed.

(** C8.  [onIdle] is called exactly on the edge from "had a job" to "has
    none".  On a tick in which the claim returns no job, [onIdle] is called
    once if the idle flag was clear and not at all if it was set, and the
    flag is set afterwards.  On a tick in which the claim returns a job,
    [onIdle] is not called and the flag is clear afterwards.  On a tick in
    which the claim throws, [onIdle] is not called and the flag stays as it
    was.  Hence a tick that starts with the flag set never calls [onIdle],
    and the flag can only be found clear after such a tick if the claim
    returned a job. *)
Theorem onIdle_fires_on_the_edge (h : Hook unit) (w : World) :
  onIdle cfg = Some h ->
  running (flags w) = true ->
  (forall w1, checkNextAndLock cfg (entered cfg w) = (inr None, w1) ->
     fired EvOnIdle (snd (tick cfg w)) =
       (fired EvOnIdle w + (if idle (flags w) then 0 else 1))%nat /\
     idle (flags (snd (tick cfg w))) = true) /\
  (forall job w1, checkNextAndLock cfg (entered cfg w) = (inr (Some job), w1) ->
     fired EvOnIdle (snd (tick cfg w)) = fired EvOnIdle w /\
     idle (flags (snd (tick cfg w))) = false) /\
  (forall err w1, checkNextAndLock cfg (entered cfg w) = (inl err, w1) ->
     fired EvOnIdle (snd (tick cfg w)) = fired EvOnIdle w /\
     idle (flags (snd (tick cfg w))) = idle (flags w)) /\
  (idle (flags w) = true ->
     fired EvOnIdle (snd (tick cfg w)) = fired EvOnIdle w) /\
  (idle (flags w) = true ->
   idle (flags (snd (tick cfg w))) = false ->
   exists job w1, checkNextAndLock cfg (entered cfg w) = (inr (Some job), w1)).
Proof.
  intros Hh Hrun.
  destruct (tick_running_idle w Hrun) as [Hidle Hfired].
  fold (idle_flag (snd (tick cfg w))). rewrite Hidle, Hfired. clear Hidle Hfired.
  pose proof (checkNextAndLock_frame cfg (entered cfg w)) as (Hf & Hl & _).
  unfold tick_try, bind.
  destruct (checkNextAndLock cfg (entered cfg w)) as [[e|[job|]] w1] eqn:Hclaim;
    cbn [fst snd] in Hf, Hl.
  - (* the claim throws *)
    assert (Hc : fired EvOnIdle w1 = fired EvOnIdle w)
      by (rewrite (fired_log_eq _ _ _ Hl); apply entered_onIdle_count).
    assert (Hi : idle_flag w1 = idle (flags w))
      by (unfold idle_flag; rewrite Hf; reflexivity).
    split; [intros ? [=]|]. split; [intros ? ? [=]|].
    split; [intros ? ? _; auto|]. split; [auto|].
    intros Hset Hclear. cbn [snd] in Hclear. congruence.
  - (* a job *)
    assert (Hc : fired EvOnIdle (snd (process cfg job w1)) = fired EvOnIdle w).
    { rewrite keeps_onIdle_count_process.
      rewrite (fired_log_eq _ _ _ Hl). apply entered_onIdle_count. }
    split; [intros ? [=]|].
    split; [intros ? ? _; split; [exact Hc | apply process_clears_idle]|].
    split; [intros ? ? [=]|]. split; [intros _; exact Hc | eauto].
  - (* no job *)
    assert (Hi : idle (flags w1) = idle (flags w)) by (rewrite Hf; reflexivity).
    assert (Hc : fired EvOnIdle w1 = fired EvOnIdle w)
      by (rewrite (fired_log_eq _ _ _ Hl); apply entered_onIdle_count).
    destruct (go_idle_edge h w1 Hh) as [Hset Hcount].
    split; [|split; [intros ? ? [=]|split; [intros ? ? [=]|split]]].
    + intros _ _. rewrite Hcount, Hi, Hc. auto.
    + intros Hidle. rewrite Hcount, Hi, Hc, Hidle. lia.
    + intros _ Hclear. congruence.
Qed.

End IdleEdge.

Lemma fired_at_clock (ev : Event) (c : Z) (w : World) :
  fired ev (at_clock c w) = fired ev w.
Proof. reflexivity. Qed.

Lemma onIdle_fires_on_the_edge_witness :
  let w := Demo.world Demo.started [Demo.later] Demo.now in
  let w1 := snd (tick Demo.hooked w) in
  let w2 := snd (tick Demo.hooked w1) in
  let w3 := snd (tick Demo.hooked (at_clock (Demo.now + 200000) w2)) in
  let w4 := snd (tick Demo.hooked w3) in
  (fired EvOnIdle w, fired EvOnIdle w1, fired EvOnIdle w2) = (0, 1, 1)%nat /\
  (idle (flags w3), fired EvOnIdle w3, fired EvOnIdle w4) = (false, 1, 2)%nat.
Proof.
  intros w w1 w2 w3 w4.
  destruct (onIdle_fires_on_the_edge Demo.hooked quiet w eq_refl eq_refl)
    as (H1 & _).
  destruct (H1 (snd (checkNextAndLock Demo.hooked (entered Demo.hooked w))))
    as [Hfirst Hflag]; [vm_compute; reflexivity|].
  destruct (onIdle_fires_on_the_edge Demo.hooked quiet w1 eq_refl eq_refl)
    as (_ & _ & _ & H2 & _).
  fold w1 in Hfirst, Hflag.
  assert (Hsecond : fired EvOnIdle w2 = 1%nat)
    by (unfold w2; rewrite (H2 Hflag), Hfirst; reflexivity).
  destruct (onIdle_fires_on_the_edge Demo.hooked quiet
              (at_clock (Demo.now + 200000) w2) eq_refl eq_refl)
    as (_ & H3 & _).
  destruct (H3 Demo.later
              (snd (checkNextAndLock Demo.hooked
                      (entered Demo.hooked (at_clock (Demo.now + 200000) w2)))))
    as [Hthird Hclear]; [vm_compute; reflexivity|].
  fold w3 in Hthird, Hclear. rewrite fired_at_clock, Hsecond in Hthird.
  destruct (onIdle_fires_on_the_edge Demo.hooked quiet w3 eq_refl)
    as (H4 & _); [vm_compute; reflexivity|].
  destruct (H4 (snd (checkNextAndLock Demo.hooked (entered Demo.hooked w3))))
    as [Hfourth _]; [vm_compute; reflexivity|].
  fold w4 in Hfourth.
  split.
  - rewrite Hfirst, Hsecond. reflexivity.
  - rewrite Hclear, Hthird. unfold w4 in *. rewrite Hfourth, Hclear, Hthird.
    reflexivity.
Defined.

(** ** Stopping *)

Section Stop.

Context {libs : Libraries}.
Variable cfg : SchedulerConfig.

(** [stop] while [processing] is set: sleep 300 ms and queue a retry. *)
Lemma stop_busy (w : World) :
  processing (flags w) = true ->
  stop cfg w =
  (inr tt,
   mkWorld (mkFlags false true (idle (flags w)))
           (mkEnv (db (env w)) (clock (env w) + 300))
           (log w ++ [EvSleep 300]) (queue w ++ [TaskStop])).
Proof.
  intros H. destruct w as [[r p i] [s c] l q]. simpl in H. subst p. reflexivity.
Qed.

(** [stop] once [processing] is clear: call [onStop] if there is one. *)
Lemma stop_drained (w : World) :
  processing (flags w) = false ->
  stop cfg w =
  call_if_set EvOnStop (onStop cfg) tt
    (set_flags (mkFlags false false (idle (flags w))) w).
Proof.
  intros H. destruct w as [[r p i] [s c] l q]. simpl in H. subst p. reflexivity.
Qed.

(** C9, as amended.  [stop] clears [running] and leaves the other two
    flags alone.  While [processing] is set it sleeps 300 ms and queues
    itself again, without calling [onStop]; once [processing] is clear it
    calls [onStop], if one is configured, and queues nothing.  A second
    call leaves the flags as the first one left them. *)
Theorem stop_polls_until_drained (w : World) :
  let w' := snd (stop cfg w) in
  running (flags w') = false /\
  processing (flags w') = processing (flags w) /\
  idle (flags w') = idle (flags w) /\
  (processing (flags w) = true ->
     fst (stop cfg w) = inr tt /\
     log w' = log w ++ [EvSleep 300] /\
     queue w' = queue w ++ [TaskStop]) /\
  (processing (flags w) = false ->
     log w' = log w ++ match onStop cfg with Some _ => [EvOnStop] | None => [] end /\
     queue w' = queue w) /\
  flags (snd (stop cfg w')) = flags w'.
Proof.
  cbv zeta.
  assert (Hflags : forall v, flags (snd (stop cfg v)) =
                             mkFlags false (processing (flags v)) (idle (flags v))).
  { intros v. destruct (processing (flags v)) eqn:Hp.
    - rewrite (stop_busy v Hp). reflexivity.
    - rewrite (stop_drained v Hp).
      destruct (call_if_set_frame EvOnStop (onStop cfg) tt
                  (set_flags (mkFlags false false (idle (flags v))) v)) as (-> & _).
      reflexivity. }
  rewrite !Hflags. simpl.
  repeat split.
  - rewrite (stop_busy w H). reflexivity.
  - rewrite (stop_busy w H). reflexivity.
  - rewrite (stop_busy w H). reflexivity.
  - rewrite (stop_drained w H).
    apply (call_if_set_frame EvOnStop (onStop cfg) tt
             (set_flags (mkFlags false false (idle (flags w))) w)).
  - rewrite (stop_drained w H).
    apply (call_if_set_frame EvOnStop (onStop cfg) tt
             (set_flags (mkFlags false false (idle (flags w))) w)).
Qed.

End Stop.

(** C9, as stated, fails on its last part: a second [stop] on a stopped
    and drained scheduler calls [onStop] a second time. *)
Lemma stop_again_calls_onStop :
  ~ stop_again_is_silent Demo.hooked
      (snd (stop Demo.hooked (Demo.world Demo.started [] Demo.now))).
Proof.
  intros H. specialize (H eq_refl eq_refl). vm_compute in H. discriminate.
Qed.

(** ** A tick that fails while processing *)

Section StuckFlag.

Context {libs : Libraries}.
Variable cfg : SchedulerConfig.

Lemma keeps_flag_handler (err : Err) : keeps processing_flag (handler cfg err).
Proof.
  intros w. unfold handler, processing_flag. f_equal. apply call_frame.
Qed.






(** A later tick that completes its [try] block does clear the flag: the
    scheduler is stuck only if [stop] comes first. *)
Lemma completed_tick_clears_flag (w w2 : World) :
  running (flags w) = true ->
  tick_try cfg (entered cfg w) = (inr tt, w2) ->
  processing (flags (snd (tick cfg w))) = false.
Proof.
  intros Hrun Htry.
  rewrite (tick_running cfg w Hrun). unfold bind, try_catch. rewrite Htry. simpl.
  revert Htry. unfold tick_try, bind.
  destruct (checkNextAndLock cfg (entered cfg w)) as [[e|[job|]] w1]; [discriminate| |].
  - unfold process, bind, set_idle, set_processing.
    destruct (call_job_if_set _ _ _) as [[e|job'] w3]; [discriminate|].
    destruct (rescheduleSleep cfg job' w3) as [[e|[]] w4]; [discriminate|].
    intros [= <-]. reflexivity.
  - unfold go_idle, bind, set_processing, isIdle. simpl.
    destruct (negb (idle (flags w1))).
    + unfold set_idle. simpl.
      match goal with |- context [call_if_set ?ev ?h ?a ?v] =>
        pose proof (call_if_set_frame ev h a v) as (Hf & _);
        destruct (call_if_set ev h a v) as [[e|[]] w3] end; [discriminate|].
      simpl in Hf. unfold sleep. intros [= <-]. simpl. rewrite Hf. reflexivity.
    + unfold ret, sleep. intros [= <-]. reflexivity.
Qed.

End StuckFlag.



(** ** Timestamps of unequal width *)

(** C1 at a failing input.  On 2026-10-26 the table holds one job that is
    due on 2286-11-20.  Its timestamp has eleven digits, the current one
    has ten, and as text "10000000000" is below "1793000000": the claim
    returns the job although it lies in the future. *)
Lemma far_future_job_is_claimed :
  let w := Demo.world Demo.started [Demo.far_future] Demo.now in
  fst (checkNextAndLock Demo.config w) = inr (Some Demo.far_future) /\
  get Demo.far_future "sleepUntil" = VStr (decimal 10000000000) /\
  formatX (clock (env w)) = decimal 1793000000 /\
  1793000000 < 10000000000.
Proof.
  intros w. repeat split; try (vm_compute; reflexivity).
Qed.

(** C5 at a failing input.  A job that recurs every minute is seeded with
    the timestamp 0.  The next occurrence after 0 is 60, far in the past,
    but as text "60" is not below "1793000000": [getNextStart] returns the
    stale occurrence instead of the current time, and the tick that
    processes the job writes it back. *)
Lemma stale_occurrence_is_not_clamped :
  let w := Demo.world Demo.started [Demo.every_minute] Demo.now in
  candidate Demo.config Demo.every_minute = inr 60000 /\
  fst (getNextStart Demo.config Demo.every_minute w) = inr (Some (decimal 60)) /\
  formatX (clock (env w)) = decimal 1793000000 /\
  60 < 1793000000 /\
  map (fun r => get r "sleepUntil") (rows (db (env (snd (tick Demo.config w)))))
    = [VStr (decimal 60)].
Proof.
  intros w. repeat split; try (vm_compute; reflexivity).
Qed.

(** * Further properties *)

(** ** Decimal timestamps of equal width *)

Lemma string_of_uint_length (d : uint) :
  String.length (NilEmpty.string_of_uint d) = nb_digits d.
Proof. induction d; simpl; congruence. Qed.

Lemma of_uint_acc_lt (d1 : uint) :
  forall (d2 : uint) (p1 p2 : positive),
    nb_digits d1 = nb_digits d2 -> (p1 < p2)%positive ->
    (Pos.of_uint_acc d1 p1 < Pos.of_uint_acc d2 p2)%positive.
Proof.
  induction d1; destruct d2; intros p1 p2 Hlen Hlt;
    cbn [nb_digits] in Hlen; try discriminate;
    cbn [Pos.of_uint_acc]; try assumption;
    apply IHd1; try congruence; lia.
Qed.

(** Decide the comparison of the two leading digit characters. *)
Ltac leading_digits :=
  match goal with
  | |- _ = match Ascii.compare ?a ?b with _ => _ end =>
      let c := eval vm_compute in (Ascii.compare a b) in
      change (Ascii.compare a b) with c; cbv iota
  end.

Lemma of_uint_acc_compare (d1 : uint) :
  forall (d2 : uint) (p : positive),
    nb_digits d1 = nb_digits d2 ->
    (Pos.of_uint_acc d1 p ?= Pos.of_uint_acc d2 p)%positive =
    String.compare (NilEmpty.string_of_uint d1) (NilEmpty.string_of_uint d2).
Proof.
  induction d1; destruct d2; intros p Hlen;
    cbn [nb_digits] in Hlen; try discriminate;
    cbn [Pos.of_uint_acc NilEmpty.string_of_uint String.compare];
    try apply Pos.compare_refl;
    leading_digits;
    try (apply IHd1; congruence);
    try (apply Pos.compare_lt_iff, of_uint_acc_lt; [congruence | lia]);
    try (apply Pos.compare_gt_iff, of_uint_acc_lt; [congruence | lia]).
Qed.

Lemma of_uint_below_acc (d1 : uint) :
  forall (d2 : uint) (p : positive),
    nb_digits d1 = nb_digits d2 ->
    (Pos.of_uint d1 < N.pos (Pos.of_uint_acc d2 p))%N.
Proof.
  induction d1; destruct d2; intros p Hlen;
    cbn [nb_digits] in Hlen; try discriminate;
    cbn [Pos.of_uint Pos.of_uint_acc];
    try (apply IHd1; congruence);
    try (apply (of_uint_acc_lt d1 d2); [congruence | lia]).
  reflexivity.
Qed.

Lemma of_uint_compare (d1 : uint) :
  forall d2 : uint,
    nb_digits d1 = nb_digits d2 ->
    (Pos.of_uint d1 ?= Pos.of_uint d2)%N =
    String.compare (NilEmpty.string_of_uint d1) (NilEmpty.string_of_uint d2).
Proof.
  induction d1; destruct d2; intros Hlen;
    cbn [nb_digits] in Hlen; try discriminate;
    cbn [Pos.of_uint NilEmpty.string_of_uint String.compare];
    try reflexivity;
    leading_digits;
    try (apply IHd1; congruence);
    try (apply (of_uint_acc_compare d1 d2); congruence);
    try (apply N.compare_lt_iff, of_uint_below_acc; congruence);
    try (apply N.compare_gt_iff, of_uint_below_acc; congruence);
    try (apply Pos.compare_lt_iff, of_uint_acc_lt; [congruence | lia]);
    try (apply Pos.compare_gt_iff, of_uint_acc_lt; [congruence | lia]).
Qed.

Lemma decimal_digits (n : Z) :
  0 <= n ->
  exists d, decimal n = NilEmpty.string_of_uint d /\ Pos.of_uint d = Z.to_N n.
Proof.
  intros Hn. destruct n as [|p|p]; [| |lia].
  - exists (D0 Nil). split; reflexivity.
  - exists (Pos.to_uint p). split; [reflexivity|].
    apply DecimalPos.Unsigned.of_to.
Qed.

Lemma decimal_lt_same_width (a b : Z) :
  0 <= a -> 0 <= b ->
  String.length (decimal a) = String.length (decimal b) ->
  str_lt (decimal a) (decimal b) = (a <? b).
Proof.
  intros Ha Hb Hlen.
  destruct (decimal_digits a Ha) as (da & Hda & Hva).
  destruct (decimal_digits b Hb) as (db & Hdb & Hvb).
  rewrite Hda, Hdb in *. rewrite !string_of_uint_length in Hlen.
  unfold str_lt, String.ltb. rewrite <- (of_uint_compare da db Hlen), Hva, Hvb.
  rewrite Z2N.inj_compare by assumption.
  unfold Z.ltb. destruct (a ?= b); reflexivity.
Qed.

(** X1.  Two clock readings at or after the epoch whose [format('X')]
    strings have the same number of digits compare, as strings, the way
    their Unix timestamps compare as numbers. *)
Theorem same_width_text_order_is_time_order (t1 t2 : Z) :
  0 <= t1 -> 0 <= t2 ->
  String.length (formatX t1) = String.length (formatX t2) ->
  str_lt (formatX t1) (formatX t2) = (unix t1 <? unix t2).
Proof.
  intros H1 H2 Hlen. unfold formatX in *.
  apply decimal_lt_same_width; trivial; unfold unix; apply Z.div_pos; lia.
Qed.

Lemma same_width_text_order_is_time_order_witness :
  str_lt (formatX 1792999990000) (formatX 1793000000500) = true /\
  str_lt (formatX 1793000100000) (formatX 1793000000500) = false.
Proof.
  split.
  - rewrite (same_width_text_order_is_time_order 1792999990000 1793000000500);
      [reflexivity | lia | lia | vm_compute; reflexivity].
  - rewrite (same_width_text_order_is_time_order 1793000100000 1793000000500);
      [reflexivity | lia | lia | vm_compute; reflexivity].
Defined.

Lemma unix_nonneg (ms : Z) : 0 <= ms -> 0 <= unix ms.
Proof. intros H. unfold unix. apply Z.div_pos; lia. Qed.

Section SameWidth.

Context {libs : Libraries}.
Variable cfg : SchedulerConfig.

(** X2.  A claimed job whose due timestamp is a canonical decimal with as
    many digits as the current timestamp is strictly past due. *)
Theorem claimed_job_is_past_due (w w' : World) (job : Obj) (t : Z) :
  checkNextAndLock cfg w = (inr (Some job), w') ->
  get job (sleepUntilFieldPath cfg) = VStr (decimal t) ->
  0 <= t -> 0 <= clock (env w) ->
  String.length (decimal t) = String.length (formatX (clock (env w))) ->
  t < unix (clock (env w)).
Proof.
  intros Hclaim Hdue Ht Hnow Hlen.
  destruct (checkNextAndLock_text_order cfg w w' job Hclaim) as (_ & s & Hs & Hlt).
  rewrite Hdue in Hs. injection Hs as <-.
  unfold formatX in *.
  rewrite decimal_lt_same_width in Hlt;
    auto using unix_nonneg.
  apply Z.ltb_lt. assumption.
Qed.

(** X3.  When the next occurrence and the current time print with the
    same number of digits, [getNextStart] returns the later of the two
    Unix timestamps. *)
Theorem getNextStart_clamps_same_width (job : Obj) (w : World) (t : Z) :
  intervalFieldPath cfg <> ""%string ->
  candidate cfg job = inr t ->
  0 <= t -> 0 <= clock (env w) ->
  String.length (formatX t) = String.length (formatX (clock (env w))) ->
  fst (getNextStart cfg job w) =
    inr (Some (decimal (Z.max (unix t) (unix (clock (env w)))))).
Proof.
  intros Hpath Hcand Ht Hnow Hlen.
  rewrite getNextStart_eq. apply String.eqb_neq in Hpath.
  rewrite Hpath, Hcand. simpl. unfold clamp, formatX in *.
  rewrite decimal_lt_same_width by auto using unix_nonneg.
  do 2 f_equal.
  destruct (Z.ltb_spec (unix t) (unix (clock (env w)))); f_equal; lia.
Qed.

End SameWidth.

Lemma claimed_job_is_past_due_witness :
  let w := Demo.world Demo.started [Demo.one_shot] Demo.now in
  1792999990 < unix (clock (env w)).
Proof.
  intros w.
  apply (claimed_job_is_past_due Demo.config w
           (snd (checkNextAndLock Demo.config w)) Demo.one_shot 1792999990).
  - vm_compute. reflexivity.
  - vm_compute. reflexivity.
  - lia.
  - vm_compute. discriminate.
  - vm_compute. reflexivity.
Defined.

Lemma getNextStart_clamps_same_width_witness :
  let w := Demo.world Demo.started [Demo.every_second] Demo.now in
  fst (getNextStart Demo.config Demo.every_second w) =
    inr (Some (decimal (Z.max (unix 1792999991000) (unix Demo.now)))).
Proof.
  intros w.
  apply (@getNextStart_clamps_same_width Demo.libs Demo.config
           Demo.every_second w 1792999991000).
  - vm_compute. discriminate.
  - vm_compute. reflexivity.
  - lia.
  - vm_compute. discriminate.
  - vm_compute. reflexivity.
Defined.

(** ** More on the claim query *)

Section ClaimMore.

Context {libs : Libraries}.
Variable cfg : SchedulerConfig.

Lemma satisfies_due (now : Z) (row : Obj) :
  satisfies (due cfg now) row = due_now cfg now row.
Proof. unfold due, due_now. apply satisfies_singleton. Qed.

Lemma sql_lt_not_null (x v : Value) : sql_lt x v = true -> is_null x = false.
Proof. destruct x; simpl; try discriminate; reflexivity. Qed.


(** X5.  Every row that [checkNextAndLock] returns is a row of the table
    whose due field holds a string, never NULL, and that string is
    strictly below the string of the current timestamp. *)
Theorem claimed_row_is_text_due (w w' : World) (job : Obj) :
  checkNextAndLock cfg w = (inr (Some job), w') ->
  In job (rows (db (env w))) /\
  exists s, get job (sleepUntilFieldPath cfg) = VStr s /\
            str_lt s (formatX (clock (env w))) = true.
Proof. apply checkNextAndLock_text_order. Qed.

Lemma find_row_None (wh : Where) (rs : list Obj) :
  find_row wh rs = None <-> forall r, In r rs -> satisfies wh r = false.
Proof.
  unfold find_row. split.
  - intros H r Hin. apply (find_none _ _ H r Hin).
  - intros H. destruct (find (satisfies wh) rs) as [r|] eqn:E; [|reflexivity].
    apply find_some in E as [Hin Hsat]. rewrite (H r Hin) in Hsat. discriminate.
Qed.

(** X6.  Rows whose due field is NULL or undefined, and rows that fall due
    in the current second, are not claimed: on a table of such rows the
    claim returns nothing and leaves every row as it is. *)
Theorem null_and_just_due_rows_are_skipped (w : World) :
  online (db (env w)) = true ->
  (forall r, In r (rows (db (env w))) ->
     is_null (get r (sleepUntilFieldPath cfg)) = true \/
     get r (sleepUntilFieldPath cfg) = VStr (formatX (clock (env w)))) ->
  fst (checkNextAndLock cfg w) = inr None /\
  rows (db (env (snd (checkNextAndLock cfg w)))) = rows (db (env w)).
Proof.
  intros Hon Hrows. rewrite checkNextAndLock_eq. cbv zeta. rewrite Hon.
  assert (Hnone : find_row (due cfg (clock (env w))) (rows (db (env w))) = None).
  { apply find_row_None. intros r Hin. rewrite satisfies_due. unfold due_now.
    destruct (Hrows r Hin) as [Hnull| ->].
    - destruct (get r (sleepUntilFieldPath cfg)); try discriminate; reflexivity.
    - simpl. apply str_lt_irrefl. }
  rewrite Hnone. split; reflexivity.
Qed.

(** X7.  A claim changes one thing in the table: the due field of the rows
    that carry the id of the returned job.  The table keeps its length,
    rows with another id are untouched, and a row with that id keeps every
    other field. *)
Theorem claim_touches_only_the_due_field (w w' : World) (job : Obj) :
  checkNextAndLock cfg w = (inr (Some job), w') ->
  length (rows (db (env w'))) = length (rows (db (env w))) /\
  forall (i : nat) (r : Obj),
    rows (db (env w)) !! i = Some r ->
    exists r',
      rows (db (env w')) !! i = Some r' /\
      (sql_eq (get r key) (get job key) = false -> r' = r) /\
      (forall k, k <> sleepUntilFieldPath cfg -> get r' k = get r k).
Proof.
  rewrite checkNextAndLock_eq. cbv zeta.
  destruct (online (db (env w))); [|discriminate].
  destruct (find_row _ _) as [j|] eqn:Hfind; [|discriminate].
  intros [= -> <-]. simpl. unfold update_rows. split.
  - apply length_map.
  - intros i r Hr.
    exists (if sql_eq (get r key) (get job key) then lock cfg (clock (env w)) ∪ r else r).
    split.
    + change (map ?f ?l) with (f <$> l). rewrite list_lookup_fmap, Hr. reflexivity.
    + destruct (sql_eq (get r key) (get job key)); split; try discriminate; trivial.
      intros k Hk. unfold lock. apply get_union_singleton_ne. congruence.
Qed.

(** X8.  A job that has been claimed is not claimed again while its lock
    stands: if a claim made right after, at any clock reading, returns a
    row with the id of the job, then the lock timestamp is below that
    reading in the order of strings; and where both are at or after the
    epoch and print with the same number of digits, the lock has expired:
    [now + lockDuration] lies in an earlier second than the reading. *)
Theorem locked_job_is_not_reclaimed (w w1 w2 : World) (job again : Obj) (c : Z) :
  checkNextAndLock cfg w = (inr (Some job), w1) ->
  checkNextAndLock cfg (at_clock c w1) = (inr (Some again), w2) ->
  sql_eq (get again key) (get job key) = true ->
  let expiry := clock (env w) + lockDuration cfg in
  str_lt (formatX expiry) (formatX c) = true /\
  (0 <= expiry -> 0 <= c ->
   String.length (formatX expiry) = String.length (formatX c) ->
   unix expiry < unix c).
Proof.
  intros Hfirst Hsecond Hid. cbv zeta.
  assert (Hlt : str_lt (formatX (clock (env w) + lockDuration cfg)) (formatX c) = true).
  { destruct (checkNextAndLock_text_order cfg _ _ _ Hsecond) as (Hin & s & Hs & Hlt).
    revert Hfirst. rewrite checkNextAndLock_eq. cbv zeta.
    destruct (online (db (env w))); [|discriminate].
    destruct (find_row _ _) as [j|]; [|discriminate].
    intros [= -> <-]. simpl in Hin.
    apply update_rows_In in Hin as [(r0 & _ & _ & ->)|[_ Hne]]; [|congruence].
    unfold lock in Hs. rewrite get_union_singleton in Hs.
    injection Hs as <-. exact Hlt. }
  split; [exact Hlt|].
  intros H1 H2 Hlen. unfold formatX in *.
  rewrite decimal_lt_same_width in Hlt by auto using unix_nonneg.
  apply Z.ltb_lt. exact Hlt.
Qed.

End ClaimMore.


Lemma claimed_row_is_text_due_witness :
  let w := Demo.world Demo.started [Demo.later; Demo.one_shot] Demo.now in
  In Demo.one_shot (rows (db (env w))) /\
  exists s, get Demo.one_shot "sleepUntil" = VStr s /\
            str_lt s (formatX Demo.now) = true.
Proof.
  intros w.
  apply (claimed_row_is_text_due Demo.config w
           (snd (checkNextAndLock Demo.config w)) Demo.one_shot).
  vm_compute. reflexivity.
Defined.

Lemma null_and_just_due_rows_are_skipped_witness :
  let w := Demo.world Demo.started
             [Demo.row 7 [("sleepUntil"%string, VNull)];
              Demo.row 8 [("sleepUntil"%string, VStr (formatX Demo.now))]]
             Demo.now in
  fst (checkNextAndLock Demo.config w) = inr None /\
  rows (db (env (snd (checkNextAndLock Demo.config w)))) = rows (db (env w)).
Proof.
  intros w. apply (null_and_just_due_rows_are_skipped Demo.config w).
  - reflexivity.
  - intros r [<-|[<-|[]]]; [left | right]; vm_compute; reflexivity.
Defined.

Lemma claim_touches_only_the_due_field_witness :
  let w := Demo.world Demo.started [Demo.later; Demo.every_second] Demo.now in
  let w' := snd (checkNextAndLock Demo.config w) in
  length (rows (db (env w'))) = 2%nat /\
  exists r', rows (db (env w')) !! 1%nat = Some r' /\
             get r' "interval" = VStr "* * * * * *".
Proof.
  intros w w'.
  destruct (claim_touches_only_the_due_field Demo.config w w' Demo.every_second)
    as [Hlen Hrows]; [vm_compute; reflexivity|].
  split; [rewrite Hlen; reflexivity|].
  destruct (Hrows 1%nat Demo.every_second eq_refl) as (r' & Hr' & _ & Hkeep).
  exists r'. split; [exact Hr'|].
  rewrite (Hkeep "interval"%string); [vm_compute; reflexivity | vm_compute; discriminate].
Defined.

Lemma locked_job_is_not_reclaimed_witness :
  let w := Demo.world Demo.started [Demo.one_shot] Demo.now in
  let w1 := snd (checkNextAndLock Demo.config w) in
  let c := Demo.now + 601000 in
  unix (Demo.now + 600000) < unix c.
Proof.
  intros w w1 c.
  destruct (locked_job_is_not_reclaimed Demo.config w w1
              (snd (checkNextAndLock Demo.config (at_clock c w1)))
              Demo.one_shot
              ({[ "sleepUntil"%string := VStr "1793000600" ]} ∪ Demo.one_shot) c)
    as [_ Hnum].
  - vm_compute. reflexivity.
  - vm_compute. reflexivity.
  - vm_compute. reflexivity.
  - apply Hnum; [vm_compute; discriminate | vm_compute; discriminate
                 | vm_compute; reflexivity].
Defined.

(** ** More on rescheduling *)

Section RescheduleMore.

Context {libs : Libraries}.
Variable cfg : SchedulerConfig.

Lemma delete_rows_In (id : Value) (r : Obj) (rs : list Obj) :
  In r (delete_rows id rs) <-> In r rs /\ sql_eq (get r key) id = false.
Proof.
  unfold delete_rows. rewrite <- !list_elem_of_In, list_elem_of_filter. tauto.
Qed.

(** X9.  A job for which [getNextStart] gives nothing and whose
    [autoRemove] flag is set is deleted by id: afterwards the table holds
    exactly the rows it held before that carry another id. *)
Theorem expired_autoRemove_job_is_deleted (job : Obj) (w : World) :
  online (db (env w)) = true ->
  fst (getNextStart cfg job w) = inr None ->
  truthy (get job (autoRemoveFieldPath cfg)) = true ->
  fst (rescheduleSleep cfg job w) = inr tt /\
  forall r, In r (rows (db (env (snd (rescheduleSleep cfg job w))))) <->
            In r (rows (db (env w))) /\ sql_eq (get r key) (get job key) = false.
Proof.
  intros Hon Hnone Hflag.
  destruct (rescheduleSleep_eq cfg job w) as (nextStart & Hnext & ->).
  rewrite Hnext in Hnone. injection Hnone as ->.
  cbv zeta. unfold disposition. rewrite Hon, Hflag. simpl.
  split; [reflexivity|]. intros r. apply delete_rows_In.
Qed.

(** X10.  A job for which [getNextStart] gives nothing and whose
    [autoRemove] flag is not set is marked expired, and an expired job is
    inert: at no later clock reading does a claim return a row with its
    id. *)
Theorem expired_job_is_never_claimed_again
    (job : Obj) (w w2 : World) (c : Z) (again : Obj) :
  online (db (env w)) = true ->
  fst (getNextStart cfg job w) = inr None ->
  truthy (get job (autoRemoveFieldPath cfg)) = false ->
  checkNextAndLock cfg (at_clock c (snd (rescheduleSleep cfg job w)))
    = (inr (Some again), w2) ->
  sql_eq (get again key) (get job key) = false.
Proof.
  intros Hon Hnone Hflag Hclaim.
  destruct (checkNextAndLock_text_order cfg _ _ _ Hclaim) as (Hin & s & Hs & _).
  destruct (rescheduleSleep_eq cfg job w) as (nextStart & Hnext & Heq).
  rewrite Hnext in Hnone. injection Hnone as ->.
  rewrite Heq in Hin. cbv zeta in Hin. unfold disposition in Hin.
  rewrite Hon, Hflag in Hin. simpl in Hin.
  apply update_rows_In in Hin as [(r0 & _ & _ & ->)|[_ Hne]]; [|exact Hne].
  rewrite get_union_singleton in Hs. discriminate.
Qed.

End RescheduleMore.

Lemma expired_autoRemove_job_is_deleted_witness :
  let w := Demo.world Demo.started [Demo.later; Demo.disposable] Demo.now in
  let w' := snd (rescheduleSleep Demo.config Demo.disposable w) in
  In Demo.later (rows (db (env w'))) /\ ~ In Demo.disposable (rows (db (env w'))).
Proof.
  intros w w'.
  destruct (expired_autoRemove_job_is_deleted Demo.config Demo.disposable w)
    as [_ Hrows].
  - reflexivity.
  - vm_compute. reflexivity.
  - vm_compute. reflexivity.
  - split.
    + apply Hrows. split; [left; reflexivity | vm_compute; reflexivity].
    + intros Hin. apply Hrows in Hin as [_ Hne]. vm_compute in Hne. discriminate.
Defined.

Lemma expired_job_is_never_claimed_again_witness :
  let w := Demo.world Demo.started [Demo.every_second; Demo.one_shot] Demo.now in
  let w1 := at_clock (Demo.now + 5000) (snd (rescheduleSleep Demo.config Demo.one_shot w)) in
  fst (checkNextAndLock Demo.config w1) = inr (Some Demo.every_second) /\
  sql_eq (get Demo.every_second key) (get Demo.one_shot key) = false.
Proof.
  intros w w1. split; [vm_compute; reflexivity|].
  apply (expired_job_is_never_claimed_again Demo.config Demo.one_shot w
           (snd (checkNextAndLock Demo.config w1)) (Demo.now + 5000)).
  - reflexivity.
  - vm_compute. reflexivity.
  - vm_compute. reflexivity.
  - vm_compute. reflexivity.
Defined.

(** ** More on the tick *)

Section TickMore.

Context {libs : Libraries}.
Variable cfg : SchedulerConfig.

Lemma getNextStart_reads_the_clock (job : Obj) (w v : World) :
  clock (env w) = clock (env v) ->
  fst (getNextStart cfg job w) = fst (getNextStart cfg job v).
Proof. intros H. rewrite !getNextStart_eq. simpl. rewrite H. reflexivity. Qed.

(** X11.  A tick that claims a job, with a job hook that returns and the
    connection up.  The hook is called once, with the row as it was before
    the lock.  The hook is handed the job object itself, so the job is then
    settled from the object as the hook left it: by the one statement that
    [getNextStart] and the [autoRemove] property of that object dictate,
    read at the clock the hook left.  The tick ends with [processing] and
    [idle] clear and one next tick queued. *)
Theorem tick_processes_the_claimed_job
    (w w1 : World) (job job' : Obj) (h : JobHook) (e2 : Env) :
  running (flags w) = true ->
  checkNextAndLock cfg (entered cfg w) = (inr (Some job), w1) ->
  onNewJob cfg = Some h ->
  h job (env w1) = (None, job', e2) ->
  online (db e2) = true ->
  exists nextStart,
    fst (getNextStart cfg job' (set_env e2 w1)) = inr nextStart /\
    fst (tick cfg w) = inr tt /\
    flags (snd (tick cfg w)) = mkFlags true false false /\
    log (snd (tick cfg w)) = log w ++ [EvSleep (nextDelay cfg); EvOnNewJob job] /\
    queue (snd (tick cfg w)) = queue w ++ [TaskTick] /\
    journal (db (env (snd (tick cfg w)))) =
      journal (db e2) ++ [disposition cfg job' nextStart] /\
    rows (db (env (snd (tick cfg w)))) =
      effect (disposition cfg job' nextStart) (rows (db e2)).
Proof.
  intros Hrun Hclaim Hhook Hcall Hon.
  pose proof (checkNextAndLock_frame cfg (entered cfg w)) as (Hf & Hl & Hq).
  rewrite Hclaim in Hf, Hl, Hq. cbn [snd] in Hf, Hl, Hq.
  rewrite entered_flags in Hf. rewrite entered_log in Hl. rewrite entered_queue in Hq.
  destruct (rescheduleSleep_eq cfg job'
              (set_env e2 (emit (EvOnNewJob job) (snd (set_idle false w1)))))
    as (nextStart & Hnext & Heq).
  exists nextStart. split.
  { rewrite (getNextStart_reads_the_clock job' (set_env e2 w1)
               (set_env e2 (emit (EvOnNewJob job) (snd (set_idle false w1)))))
      by reflexivity.
    rewrite Hnext. reflexivity. }
  assert (Htick : tick cfg w =
    (inr tt,
     snd (nextTick TaskTick (snd (set_processing false
       (journalled [disposition cfg job' nextStart]
          (effect (disposition cfg job' nextStart) (rows (db e2)))
          (set_env e2 (emit (EvOnNewJob job) (snd (set_idle false w1)))))))))).
  { rewrite (tick_running cfg w Hrun).
    unfold try_catch, tick_try, process, bind. rewrite Hclaim.
    unfold call_job_if_set. rewrite Hhook. unfold call_job.
    change (set_idle false w1) with (@inr Err unit tt, snd (set_idle false w1)).
    cbv beta iota.
    change (env (emit (EvOnNewJob job) (snd (set_idle false w1)))) with (env w1).
    rewrite Hcall. cbv beta iota. rewrite Heq. cbv zeta.
    change (online (db (env (set_env e2 ?v)))) with (online (db e2)). rewrite Hon.
    reflexivity. }
  rewrite Htick. simpl. rewrite Hf, Hl, Hq. simpl. rewrite Hrun, <- app_assoc.
  repeat split.
Qed.

(** X12.  A tick whose job hook throws sends nothing to the database after
    the claim: the error goes to [onError], and the environment the tick
    leaves is the one the two hooks left.  The job is not rescheduled, so
    its row keeps the lock unless a hook rewrites it. *)
Theorem failed_job_is_not_rescheduled
    (w w1 : World) (job job' : Obj) (h : JobHook) (err : Err) (e2 : Env) :
  running (flags w) = true ->
  checkNextAndLock cfg (entered cfg w) = (inr (Some job), w1) ->
  onNewJob cfg = Some h ->
  h job (env w1) = (Some err, job', e2) ->
  env (snd (tick cfg w)) = snd (onError cfg err e2) /\
  log (snd (tick cfg w)) =
    log w ++ [EvSleep (nextDelay cfg); EvOnNewJob job; EvOnError err].
Proof.
  intros Hrun Hclaim Hhook Hcall.
  pose proof (checkNextAndLock_frame cfg (entered cfg w)) as (_ & Hl & _).
  rewrite Hclaim in Hl. cbn [snd] in Hl. rewrite entered_log in Hl.
  assert (Htick : tick cfg w =
    (handler cfg err ;; nextTick TaskTick)
      (set_env e2 (emit (EvOnNewJob job) (snd (set_idle false w1))))).
  { rewrite (tick_running cfg w Hrun).
    unfold try_catch, tick_try, process, bind. rewrite Hclaim.
    unfold call_job_if_set. rewrite Hhook. unfold call_job.
    change (set_idle false w1) with (@inr Err unit tt, snd (set_idle false w1)).
    cbv beta iota.
    change (env (emit (EvOnNewJob job) (snd (set_idle false w1)))) with (env w1).
    rewrite Hcall. reflexivity. }
  rewrite Htick. unfold bind, handler, call. simpl.
  destruct (onError cfg err e2) as [[e|] e3]; simpl; rewrite Hl, <- !app_assoc;
    split; reflexivity.
Qed.

Lemma stop_flags (v : World) :
  flags (snd (stop cfg v)) = mkFlags false (processing (flags v)) (idle (flags v)).
Proof.
  destruct (processing (flags v)) eqn:Hp.
  - rewrite (stop_busy cfg v Hp). reflexivity.
  - rewrite (stop_drained cfg v Hp).
    destruct (call_if_set_frame EvOnStop (onStop cfg) tt
                (set_flags (mkFlags false false (idle (flags v))) v)) as (-> & _).
    reflexivity.
Qed.

Lemma tick_resume_running (w : World) :
  running (flags w) = true ->
  tick_resume cfg w =
  (try_catch (tick_try cfg) (handler cfg) ;; nextTick TaskTick)
    (snd (set_processing true w)).
Proof.
  intros H. unfold tick_resume, handler.
  destruct w as [[r p i] e l q]. simpl in H. subst r. reflexivity.
Qed.

(** X13.  Whether a tick queues a successor is decided when it resumes
    after the [nextDelay] sleep.  A tick that then finds the scheduler
    running and returns has queued exactly one next tick.  A tick that then
    finds it stopped returns at once, queues nothing and changes nothing;
    this is the fate of a tick that found the scheduler running on entry
    when [stop] was called during its sleep.  On entry, a tick that finds
    the scheduler stopped does nothing at all. *)
Theorem resumed_tick_queues_one_successor (w : World) :
  (running (flags w) = true ->
   fst (tick_resume cfg w) = inr tt ->
   queue (snd (tick_resume cfg w)) = queue w ++ [TaskTick]) /\
  (running (flags w) = false -> tick_resume cfg w = (inr tt, w)) /\
  (running (flags w) = false -> run_task cfg TaskTick w = (inr tt, w)) /\
  (running (flags w) = true ->
   let asleep := snd (run_task cfg TaskTick w) in
   let stopped := snd (stop cfg asleep) in
   queue asleep = queue w ++ [TaskResume] /\
   tick_resume cfg stopped = (inr tt, stopped)).
Proof.
  split; [|split; [apply tick_resume_stopped|split]].
  - intros Hrun. rewrite (tick_resume_running w Hrun).
    pose proof (keeps_queue_tick_try cfg (snd (set_processing true w))) as Hq.
    change (queue (snd (set_processing true w))) with (queue w) in Hq.
    unfold bind, try_catch.
    destruct (tick_try cfg (snd (set_processing true w))) as [[e|[]] w1];
      cbn [snd] in Hq.
    + pose proof (call_frame (EvOnError e) (onError cfg) e w1) as (_ & _ & Hq').
      unfold handler.
      destruct (call (EvOnError e) (onError cfg) e w1) as [[e'|[]] w2];
        [discriminate|].
      cbn [snd] in Hq'. intros _. simpl. rewrite Hq', Hq. reflexivity.
    + intros _. simpl. rewrite Hq. reflexivity.
  - intros Hrun. simpl. unfold tick_enter, bind, isRunning. rewrite Hrun.
    reflexivity.
  - intros Hrun. cbv zeta. split.
    + simpl. unfold tick_enter, bind, isRunning. rewrite Hrun. reflexivity.
    + apply tick_resume_stopped.
      rewrite stop_flags. reflexivity.
Qed.

End TickMore.

Lemma tick_processes_the_claimed_job_witness :
  let w := Demo.world Demo.started [Demo.one_shot] Demo.now in
  get Demo.one_shot "autoRemove" = VUndef /\
  rows (db (env (snd (tick Demo.tidy w)))) = [] /\
  flags (snd (tick Demo.tidy w)) = mkFlags true false false.
Proof.
  intros w. split; [reflexivity|].
  destruct (@tick_processes_the_claimed_job Demo.libs Demo.tidy w
              (snd (checkNextAndLock Demo.tidy (entered Demo.tidy w)))
              Demo.one_shot
              (<["autoRemove"%string := VBool true]> Demo.one_shot)
              Demo.discarding
              (env (snd (checkNextAndLock Demo.tidy (entered Demo.tidy w)))))
    as (nextStart & Hnext & _ & Hflags & _ & _ & _ & Hrows).
  - reflexivity.
  - vm_compute. reflexivity.
  - reflexivity.
  - reflexivity.
  - reflexivity.
  - split; [|exact Hflags].
    rewrite Hrows.
    assert (Hn : nextStart = None).
    { assert (H : fst (getNextStart Demo.tidy
                         (<["autoRemove"%string := VBool true]> Demo.one_shot)
                         (set_env (env (snd (checkNextAndLock Demo.tidy
                                                (entered Demo.tidy w))))
                                  (snd (checkNextAndLock Demo.tidy
                                          (entered Demo.tidy w)))))
                  = inr None) by (vm_compute; reflexivity).
      rewrite H in Hnext. injection Hnext as <-. reflexivity. }
    rewrite Hn. vm_compute. reflexivity.
Defined.

Lemma failed_job_is_not_rescheduled_witness :
  let w := Demo.world Demo.started [Demo.one_shot] Demo.now in
  map (fun r => get r "sleepUntil") (rows (db (env (snd (tick Demo.fragile w)))))
    = [VStr "1793000600"].
Proof.
  intros w.
  destruct (@failed_job_is_not_rescheduled Demo.libs Demo.fragile w
              (snd (checkNextAndLock Demo.fragile (entered Demo.fragile w)))
              Demo.one_shot Demo.one_shot
              (Demo.failing_job "onNewJob") (HookError "onNewJob")
              (env (snd (checkNextAndLock Demo.fragile (entered Demo.fragile w)))))
    as [Henv _].
  - reflexivity.
  - vm_compute. reflexivity.
  - reflexivity.
  - reflexivity.
  - rewrite Henv. vm_compute. reflexivity.
Defined.

Lemma resumed_tick_queues_one_successor_witness :
  let w := Demo.world Demo.started [Demo.later] Demo.now in
  let asleep := snd (run_task Demo.config TaskTick w) in
  let stopped := snd (stop Demo.config asleep) in
  queue (snd (tick_resume Demo.config asleep)) = [TaskResume; TaskTick] /\
  queue (snd (tick_resume Demo.config stopped)) = [TaskResume].
Proof.
  intros w asleep stopped. split.
  - apply (proj1 (resumed_tick_queues_one_successor Demo.config asleep));
      [reflexivity | vm_compute; reflexivity].
  - destruct (resumed_tick_queues_one_successor Demo.config w)
      as (_ & _ & _ & Hstop).
    destruct (Hstop eq_refl) as [Hq Hres].
    fold asleep in Hq, Hres. fold stopped in Hres. rewrite Hres. reflexivity.
Defined.

(** ** Starting, and staying stopped *)

Section StartMore.

Context {libs : Libraries}.
Variable cfg : SchedulerConfig.

Lemma start_noop (w : World) :
  running (flags w) = true -> start cfg w = (inr tt, w).
Proof.
  intros H. unfold start, bind, isRunning. rewrite H. reflexivity.
Qed.

Lemma start_fresh (w : World) :
  running (flags w) = false ->
  start cfg w =
  (call_if_set EvOnStart (onStart cfg) tt ;; nextTick TaskTick)
    (snd (set_running true w)).
Proof.
  intros H. unfold start, bind, isRunning. rewrite H. reflexivity.
Qed.

Lemma start_sets_running (w : World) :
  running (flags (snd (start cfg w))) = true.
Proof.
  destruct (running (flags w)) eqn:Hrun.
  - rewrite (start_noop w Hrun). exact Hrun.
  - rewrite (start_fresh w Hrun). unfold bind.
    pose proof (call_if_set_frame EvOnStart (onStart cfg) tt (snd (set_running true w)))
      as (Hf & _).
    destruct (call_if_set EvOnStart (onStart cfg) tt (snd (set_running true w)))
      as [[e|[]] w1]; cbn [snd] in *; simpl; rewrite Hf; reflexivity.
Qed.


(** X15.  When [onStart] throws, [start] fails with that error after it
    has set [running] and before it queues the first tick.  The scheduler
    then reports that it runs although no tick is pending, and a further
    [start] does not repair this: it returns without queueing a tick. *)
Theorem failing_onStart_leaves_no_loop
    (w : World) (h : Hook unit) (err : Err) (e' : Env) :
  running (flags w) = false ->
  onStart cfg = Some h ->
  h tt (env w) = (Some err, e') ->
  fst (start cfg w) = inl err /\
  running (flags (snd (start cfg w))) = true /\
  queue (snd (start cfg w)) = queue w /\
  queue (snd (start cfg (snd (start cfg w)))) = queue w.
Proof.
  intros Hrun Hhook Hcall.
  assert (Hstart : start cfg w =
            (inl err, set_env e' (emit EvOnStart (snd (set_running true w))))).
  { rewrite (start_fresh w Hrun). unfold bind, call_if_set. rewrite Hhook.
    unfold call.
    change (env (emit EvOnStart (snd (set_running true w)))) with (env w).
    rewrite Hcall. reflexivity. }
  rewrite (start_noop (snd (start cfg w))) by apply start_sets_running.
  rewrite Hstart. repeat split.
Qed.

(** While the scheduler is halted, a task that runs is a tick that returns
    at once. *)
Lemma halted_step (w w' : World) :
  halted w -> step cfg w w' ->
  halted w' /\ flags w' = flags w /\ env w' = env w /\ log w' = log w /\
  (length (queue w') < length (queue w))%nat.
Proof.
  intros (Hrun & Hproc & Hno) Hstep.
  destruct Hstep as [w t before after Hq].
  assert (Hlen : (length (before ++ after) < length (queue w))%nat).
  { rewrite Hq, !length_app. simpl. lia. }
  assert (Hno' : ~ In TaskStop (before ++ after)).
  { intros Hin. apply Hno. rewrite Hq.
    apply in_app_iff in Hin as [H|H]; apply in_app_iff; simpl; auto. }
  destruct t.
  - simpl. unfold tick_enter, bind, isRunning. simpl. rewrite Hrun. simpl.
    repeat split; assumption.
  - simpl. rewrite tick_resume_stopped by exact Hrun. simpl.
    repeat split; assumption.
  - exfalso. apply Hno. rewrite Hq. apply in_app_iff. right. left. reflexivity.
Qed.

(** X16.  Once the scheduler is stopped and drained and no retry of [stop]
    is waiting, the loop dies out: whatever ticks are still queued return
    at once when they run, none of them touches the flags, the database,
    the clock or the log, none calls a hook, and none queues a
    successor. *)
Theorem halted_scheduler_stays_silent (w w' : World) :
  halted w -> steps cfg w w' ->
  halted w' /\ flags w' = flags w /\ env w' = env w /\ log w' = log w /\
  (length (queue w') <= length (queue w))%nat.
Proof.
  intros Hhalt Hsteps.
  induction Hsteps as [|w1 w2 w3 Hsteps IH Hstep].
  - repeat split; try apply Hhalt; lia.
  - destruct (IH Hhalt) as (H2 & Hf & He & Hl & Hq).
    destruct (halted_step w2 w3 H2 Hstep) as (H3 & Hf' & He' & Hl' & Hq').
    split; [exact H3|]. rewrite Hf', He', Hl'. repeat split; trivial. lia.
Qed.

End StartMore.

Lemma failing_onStart_leaves_no_loop_witness :
  let cfg := constructor
               (mkOptions None None None None None None None None
                          (Some (Demo.failing "onStart")) None None None) in
  let w := Demo.world initial [Demo.one_shot] Demo.now in
  fst (start cfg w) = inl (HookError "onStart") /\
  running (flags (snd (start cfg w))) = true /\
  queue (snd (start cfg (snd (start cfg w)))) = [].
Proof.
  intros cfg w.
  destruct (failing_onStart_leaves_no_loop cfg w
              (Demo.failing "onStart") (HookError "onStart") (env w))
    as (Hfail & Hrun & _ & Hqueue); try reflexivity.
  repeat split; assumption.
Defined.

Lemma halted_scheduler_stays_silent_witness :
  let w := snd (stop Demo.hooked (snd (start Demo.hooked
                 (Demo.world initial [Demo.one_shot] Demo.now)))) in
  let w' := snd (run_task Demo.hooked TaskTick (with_queue ([] ++ []) w)) in
  queue w = [TaskTick] /\ log w' = [EvOnStart; EvOnStop] /\ queue w' = [] /\
  rows (db (env w')) = [Demo.one_shot].
Proof.
  intros w w'.
  assert (Hhalt : halted w).
  { repeat split; try reflexivity. vm_compute. intros [H|[]]. discriminate. }
  destruct (@halted_scheduler_stays_silent Demo.libs Demo.hooked w w' Hhalt)
    as (_ & _ & Henv & Hlog & _).
  - eapply steps_next; [apply steps_refl|].
    apply (step_run Demo.hooked w TaskTick [] []). reflexivity.
  - split; [reflexivity|]. rewrite Hlog, Henv.
    split; [reflexivity|]. split; reflexivity.
Defined.

(** ** Coming due again *)

Section DueAgain.

Context {libs : Libraries}.
Variable cfg : SchedulerConfig.

Lemma find_row_found (wh : Where) (rs : list Obj) (r : Obj) :
  In r rs -> satisfies wh r = true -> exists j, find_row wh rs = Some j.
Proof.
  intros Hin Hsat. destruct (find_row wh rs) as [j|] eqn:E; [eauto|].
  apply find_row_None with (r := r) in E; [congruence | assumption].
Qed.

(** A table in which some row carries a due stamp below the current one
    yields a job. *)
Lemma claim_finds_a_due_row (w : World) (r : Obj) :
  online (db (env w)) = true ->
  In r (rows (db (env w))) ->
  due_now cfg (clock (env w)) r = true ->
  exists j w', checkNextAndLock cfg w = (inr (Some j), w').
Proof.
  intros Hon Hin Hdue. rewrite checkNextAndLock_eq. cbv zeta. rewrite Hon.
  destruct (find_row_found (due cfg (clock (env w))) _ r Hin) as [j Hj].
  - rewrite satisfies_due. exact Hdue.
  - rewrite Hj. eauto.
Qed.

(** X17.  A job that has been re-armed comes due again: once the string of
    the clock reading is above the stamp that [getNextStart] gave, a claim
    on the table that [rescheduleSleep] left returns a job. *)
Theorem rearmed_job_comes_due_again
    (job stored : Obj) (w : World) (s : string) (c : Z) :
  online (db (env w)) = true ->
  fst (getNextStart cfg job w) = inr (Some s) ->
  In stored (rows (db (env w))) ->
  sql_eq (get stored key) (get job key) = true ->
  str_lt s (formatX c) = true ->
  exists j w',
    checkNextAndLock cfg (at_clock c (snd (rescheduleSleep cfg job w)))
      = (inr (Some j), w').
Proof.
  intros Hon Hnext Hin Hid Hlt.
  destruct (rescheduleSleep_eq cfg job w) as (nextStart & Hn & Heq).
  rewrite Hn in Hnext. injection Hnext as ->.
  apply (claim_finds_a_due_row _ ({[ sleepUntilFieldPath cfg := VStr s ]} ∪ stored)).
  - rewrite Heq. cbv zeta. rewrite Hon. exact Hon.
  - rewrite Heq. cbv zeta. rewrite Hon. simpl.
    apply update_rows_hit; assumption.
  - unfold due_now. rewrite get_union_singleton. exact Hlt.
Qed.

(** X18.  A lock expires by itself: if the job that a claim locked is
    never rescheduled, a claim on the same table returns a job again as
    soon as the string of the clock reading is above the lock stamp. *)
Theorem expired_lock_is_claimed_again (w w1 : World) (job : Obj) (c : Z) :
  checkNextAndLock cfg w = (inr (Some job), w1) ->
  is_null (get job key) = false ->
  str_lt (formatX (clock (env w) + lockDuration cfg)) (formatX c) = true ->
  exists j w2, checkNextAndLock cfg (at_clock c w1) = (inr (Some j), w2).
Proof.
  intros Hclaim Hid Hlt. revert Hclaim.
  rewrite checkNextAndLock_eq. cbv zeta.
  destruct (online (db (env w))) eqn:Hon; [|discriminate].
  destruct (find_row _ _) as [j|] eqn:Hfind; [|discriminate].
  intros [= -> <-].
  apply (claim_finds_a_due_row _ (lock cfg (clock (env w)) ∪ job)).
  - exact Hon.
  - simpl. apply update_rows_hit.
    + apply find_row_Some in Hfind. tauto.
    + apply sql_eq_refl. exact Hid.
  - unfold due_now, lock. rewrite get_union_singleton. exact Hlt.
Qed.

(** X19.  When [onIdle] throws, the error goes to [onError] and the idle
    sleep is skipped: the next tick follows without the idle delay.  The
    idle flag has been set before the hook ran, so the hook is not called
    again on the idle ticks that follow. *)
Theorem failing_onIdle_skips_the_idle_sleep
    (w w1 : World) (h : Hook unit) (err : Err) (e2 : Env) :
  running (flags w) = true ->
  idle (flags w) = false ->
  checkNextAndLock cfg (entered cfg w) = (inr None, w1) ->
  onIdle cfg = Some h ->
  h tt (env w1) = (Some err, e2) ->
  log (snd (tick cfg w)) =
    log w ++ [EvSleep (nextDelay cfg); EvOnIdle; EvOnError err] /\
  env (snd (tick cfg w)) = snd (onError cfg err e2) /\
  flags (snd (tick cfg w)) = mkFlags true false true.
Proof.
  intros Hrun Hidle Hclaim Hhook Hcall.
  pose proof (checkNextAndLock_frame cfg (entered cfg w)) as (Hf & Hl & _).
  rewrite Hclaim in Hf, Hl. cbn [snd] in Hf, Hl.
  rewrite entered_flags in Hf. rewrite entered_log in Hl.
  destruct w1 as [f1 e1 l1 q1]. cbn [flags log env] in Hf, Hl, Hcall. subst f1 l1.
  rewrite (tick_running cfg w Hrun).
  unfold try_catch, tick_try, bind. rewrite Hclaim.
  unfold go_idle, bind, set_processing, isIdle, set_idle, call_if_set.
  rewrite Hhook. cbn [flags set_flags idle running processing fst snd env log queue].
  rewrite Hidle. cbn [negb]. unfold call, emit.
  cbn [flags set_flags idle running processing fst snd env log queue].
  rewrite Hcall. unfold handler, call, emit, set_env, nextTick.
  cbn [flags set_flags idle running processing fst snd env log queue].
  destruct (onError cfg err e2) as [[e|] e3];
    cbn [flags set_flags idle running processing fst snd env log queue];
    rewrite <- !app_assoc, Hrun; repeat split.
Qed.

End DueAgain.

Lemma rearmed_job_comes_due_again_witness :
  let w := Demo.world Demo.started [Demo.every_second] Demo.now in
  let w' := at_clock (Demo.now + 1000)
              (snd (rescheduleSleep Demo.config Demo.every_second w)) in
  exists j v, checkNextAndLock Demo.config w' = (inr (Some j), v).
Proof.
  intros w w'.
  apply (@rearmed_job_comes_due_again Demo.libs Demo.config Demo.every_second
           Demo.every_second w "1793000000"%string (Demo.now + 1000)).
  - reflexivity.
  - vm_compute. reflexivity.
  - left. reflexivity.
  - vm_compute. reflexivity.
  - vm_compute. reflexivity.
Defined.

Lemma expired_lock_is_claimed_again_witness :
  let w := Demo.world Demo.started [Demo.one_shot] Demo.now in
  let w1 := snd (checkNextAndLock Demo.config w) in
  exists j v,
    checkNextAndLock Demo.config (at_clock (Demo.now + 601000) w1) = (inr (Some j), v).
Proof.
  intros w w1.
  apply (expired_lock_is_claimed_again Demo.config w w1 Demo.one_shot
           (Demo.now + 601000)).
  - vm_compute. reflexivity.
  - vm_compute. reflexivity.
  - vm_compute. reflexivity.
Defined.

Lemma failing_onIdle_skips_the_idle_sleep_witness :
  let cfg := constructor
               (mkOptions None None None None None None None None
                          None None (Some (Demo.failing "onIdle")) None) in
  let w := Demo.world Demo.started [Demo.later] Demo.now in
  log (snd (tick cfg w)) = [EvSleep 0; EvOnIdle; EvOnError (HookError "onIdle")] /\
  clock (env (snd (tick cfg w))) = Demo.now.
Proof.
  intros cfg w.
  destruct (@failing_onIdle_skips_the_idle_sleep Demo.libs cfg w
              (snd (checkNextAndLock cfg (entered cfg w)))
              (Demo.failing "onIdle") (HookError "onIdle")
              (env (snd (checkNextAndLock cfg (entered cfg w)))))
    as (Hlog & Henv & _).
  - reflexivity.
  - reflexivity.
  - vm_compute. reflexivity.
  - reflexivity.
  - reflexivity.
  - split; [rewrite Hlog; reflexivity|]. rewrite Henv. reflexivity.
Defined.

(** ** A tick while the database is down *)

Section Outage.

Context {libs : Libraries}.
Variable cfg : SchedulerConfig.

(** X20.  A tick that runs while the connection is down fails in the
    claim, at BEGIN: the table is not touched, [onError] receives the
    store error, [processing] stays set and [idle] is left as it was; if
    [onError] returns, the next tick is queued. *)
Theorem store_outage_is_reported (w : World) :
  running (flags w) = true ->
  online (db (env w)) = false ->
  let down := env (journalled [QBegin] (rows (db (env w))) (entered cfg w)) in
  rows (db down) = rows (db (env w)) /\
  log (snd (tick cfg w)) = log w ++ [EvSleep (nextDelay cfg); EvOnError StoreError] /\
  env (snd (tick cfg w)) = snd (onError cfg StoreError down) /\
  flags (snd (tick cfg w)) = mkFlags true true (idle (flags w)) /\
  (fst (onError cfg StoreError down) = None ->
   fst (tick cfg w) = inr tt /\ queue (snd (tick cfg w)) = queue w ++ [TaskTick]).
Proof.
  intros Hrun Hoff. cbv zeta.
  rewrite (tick_running cfg w Hrun).
  unfold try_catch, tick_try, bind. rewrite checkNextAndLock_eq. cbv zeta.
  change (online (db (env (entered cfg w)))) with (online (db (env w))).
  rewrite Hoff. unfold handler, call.
  change (rows (db (env (entered cfg w)))) with (rows (db (env w))).
  change (env (emit (EvOnError StoreError) ?v)) with (env v).
  destruct (onError cfg StoreError _) as [[e|] e3];
    simpl; rewrite Hrun, <- ?app_assoc; repeat split; discriminate.
Qed.

End Outage.

Lemma store_outage_is_reported_witness :
  let w := mkWorld Demo.started
             (mkEnv (mkStore [Demo.one_shot] false []) Demo.now) [] [] in
  log (snd (tick Demo.config w)) = [EvSleep 0; EvOnError StoreError] /\
  rows (db (env (snd (tick Demo.config w)))) = [Demo.one_shot] /\
  queue (snd (tick Demo.config w)) = [TaskTick].
Proof.
  intros w.
  destruct (@store_outage_is_reported Demo.libs Demo.config w eq_refl eq_refl)
    as (_ & Hlog & Henv & _ & Hnext).
  destruct (Hnext eq_refl) as [_ Hqueue].
  split; [exact Hlog|]. split; [rewrite Henv; reflexivity | exact Hqueue].
Defined.
